(** * The numerical-analysis kernel of [physics.py]

    A shallow embedding of the complex scalar type [complex2], the discrete
    Fourier transforms ([disc_fourier], [disc_inv_fourier], [dfft]), the
    discrete convolution [disc_convolve], the Runge-Kutta stepper
    [runge_kutta4] and the root finders [num_bisection], [num_linear] and
    [num_secant]; and, around them, [num_newton], the differentiators
    [diff] and [diff_5], and the classes [vector3], [ball] and
    [point_source].

    Python floats are modelled by the real numbers [R] (exact arithmetic),
    and list indices and loop counters by [nat] or [Z].  A Python call
    either returns a value or raises: this is the [result] type below.

    The arithmetic operands of the definitions outside [Module Py2] are
    floats: there [/] is the division of [R].  The source is Python 2,
    where [/] between two ints is the floored quotient; [Module Py2] has
    numbers that are ints or floats, and the division of [complex2] and
    the Runge-Kutta step on them. *)

From Stdlib Require Import String Reals Lra Lia ZArith List.
From Equations Require Import Equations.
Import ListNotations.

Open Scope R_scope.

(* ===================================================================== *)
(** * Python outcomes: exceptions and the error monad                    *)
(* ===================================================================== *)

(** The exceptions the kernel can raise.  The module raises two kinds of
    its own: string exceptions ([raise "..."]) and a [ValueError]; the
    others come from the interpreter (float division by zero, indexing
    past the end of a list, an operator no operand implements, reading a
    local before it is bound). *)
Inductive exn : Type :=
| StrExn (msg : string)
| ValueError (msg : string)
| ZeroDivisionError
| IndexError
| TypeError
| UnboundLocalError.

(** The names the specification gives to the kernel's own errors. *)
Definition DivideByZero : exn := StrExn "Cannot divide by zero".
Definition NoConvergence : exn := StrExn "No root was found. Try new guesses.".
Definition InvalidLength : exn := ValueError "Size of x must be a power of 2.".

Inductive result (A : Type) : Type :=
| Ok (a : A)
| Raise (e : exn).
Arguments Ok {A} a.
Arguments Raise {A} e.

Definition bind {A B} (m : result A) (k : A -> result B) : result B :=
  match m with
  | Ok a => k a
  | Raise e => Raise e
  end.

Declare Scope py_scope.
Delimit Scope py_scope with py.
Notation "x <- m ;; k" := (bind m (fun x => k))
  (at level 61, m at next level, right associativity) : py_scope.
Open Scope py_scope.

(** [for a in l: s = body(s, a)], where the body may raise. *)
Fixpoint for_each {A S} (l : list A) (body : S -> A -> result S) (s : S)
  : result S :=
  match l with
  | [] => Ok s
  | a :: l' => s' <- body s a ;; for_each l' body s'
  end.

(** [[e(a) for a in l]], and the loops that only [append] to a list. *)
Fixpoint mapM {A B} (f : A -> result B) (l : list A) : result (list B) :=
  match l with
  | [] => Ok []
  | a :: l' => b <- f a ;; bs <- mapM f l' ;; Ok (b :: bs)
  end.

(** [range(n)]. *)
Definition range (n : nat) : list nat := seq 0 n.

(** [l[i]] for a non-negative index. *)
Definition getitem {A} (l : list A) (i : nat) : result A :=
  match nth_error l i with
  | Some a => Ok a
  | None => Raise IndexError
  end.

(** One turn of a loop whose body can [return] or [raise]. *)
Inductive step (S A : Type) : Type :=
| Next (s : S)
| Exit (r : result A).
Arguments Next {S A} s.
Arguments Exit {S A} r.

(** [for i in l: body], followed by the code [after] the loop. *)
Fixpoint for_loop {I S A} (l : list I) (body : I -> S -> step S A)
  (after : S -> result A) (s : S) : result A :=
  match l with
  | [] => after s
  | i :: l' =>
      match body i s with
      | Next s' => for_loop l' body after s'
      | Exit r => r
      end
  end.

(** Comparisons of floats, as booleans. *)
Definition Reqb (x y : R) : bool := if Req_dec_T x y then true else false.
Definition Rleb (x y : R) : bool := if Rle_dec x y then true else false.
Definition Rgtb (x y : R) : bool := if Rgt_dec x y then true else false.

(** Float division [x / y]. *)
Definition fdiv (x y : R) : result R :=
  if Reqb y 0 then Raise ZeroDivisionError else Ok (x / y).

(* ===================================================================== *)
(** * [class complex2]                                                   *)
(* ===================================================================== *)

Record complex2 : Type := Complex2 { re : R ; im : R }.

(** A sample is a float or a [complex2]; the operators test
    [isinstance(other, complex2)]. *)
Inductive num : Type :=
| Flt (r : R)
| Cx (z : complex2).

Definition mag (self : complex2) : R :=
  sqrt (re self ^ 2 + im self ^ 2).

Definition __add__ (self : complex2) (other : num) : complex2 :=
  match other with
  | Cx o => Complex2 (re self + re o) (im self + im o)
  | Flt o => Complex2 (re self + o) (im self)
  end.

(** [__iadd__] updates [self] and returns it; no caller keeps another
    reference to the accumulator, so the updated value is all there is. *)
Definition __iadd__ (self : complex2) (other : num) : complex2 :=
  match other with
  | Cx o => Complex2 (re self + re o) (im self + im o)
  | Flt o => Complex2 (re self + o) (im self)
  end.

Definition __sub__ (self : complex2) (other : num) : complex2 :=
  match other with
  | Cx o => Complex2 (re self - re o) (im self - im o)
  | Flt o => Complex2 (re self - o) (im self)
  end.

Definition __mul__ (self : complex2) (other : num) : complex2 :=
  match other with
  | Cx o => Complex2 (re o * re self - im o * im self)
                     (re o * im self + im o * re self)
  | Flt o => Complex2 (o * re self) (o * im self)
  end.

Definition __rmul__ (self : complex2) (other : R) : complex2 :=
  Complex2 (other * re self) (other * im self).

(** [__div__] on float operands ([Py2.__div__] has the int ones). *)
Definition __div__ (self : complex2) (other : num) : result complex2 :=
  match other with
  | Flt o =>
      if Reqb o 0 then Raise DivideByZero
      else Ok (Complex2 (re self / o) (im self / o))
  | Cx o =>
      if Reqb (mag o) 0 then Raise DivideByZero
      else
        let real := (re self * re o + im self * im o) / (re o ^ 2 + im o ^ 2) in
        let imaginary :=
          (im self * re o - re self * im o) / (re o ^ 2 + im o ^ 2) in
        Ok (Complex2 real imaginary)
  end.

(** [a * b] on samples.  Two floats multiply as floats; a float on the
    left of a [complex2] defers to [__rmul__]; a [complex2] on the left
    uses its [__mul__]. *)
Definition py_mul (a b : num) : num :=
  match a, b with
  | Flt x, Flt y => Flt (x * y)
  | Flt x, Cx z => Cx (__rmul__ z x)
  | Cx z, _ => Cx (__mul__ z b)
  end.

(** [a += b] on samples.  The class has [__add__] and [__iadd__] but no
    [__radd__]: a number on the left of a [complex2] finds no
    implementation of [+]. *)
Definition py_iadd (a b : num) : result num :=
  match a, b with
  | Flt x, Flt y => Ok (Flt (x + y))
  | Flt _, Cx _ => Raise TypeError
  | Cx z, _ => Ok (Cx (__iadd__ z b))
  end.

Definition exp2 (x : num) : complex2 :=
  match x with
  | Cx z => __rmul__ (Complex2 (cos (im z)) (sin (im z))) (exp (re z))
  | Flt r => Complex2 (exp r) 0
  end.

(** The sample as a complex number. *)
Definition to_complex2 (a : num) : complex2 :=
  match a with
  | Flt r => Complex2 r 0
  | Cx z => z
  end.

(* ===================================================================== *)
(** * [disc_convolve]                                                    *)
(* ===================================================================== *)

Definition disc_convolve (f g : list num) : result (list num) :=
  mapM (fun i =>
          for_each (range (length g))
            (fun sums j =>
               if (j <=? i)%nat
               then fij <- getitem f (i - j) ;;
                    gj <- getitem g j ;;
                    py_iadd sums (py_mul fij gj)
               else Ok sums)
            (Flt 0))
       (range (length f)).

(** The sum the specification writes for entry [i]:
    the terms [f[i-j]*g[j]] for [j] in [[0, len(g))] with [j <= i]. *)
Definition convolution_sum (f g : list R) (i : nat) : R :=
  fold_right Rplus 0
    (map (fun j => nth (i - j) f 0 * nth j g 0)
         (filter (fun j => (j <=? i)%nat) (seq 0 (length g)))).

(* ===================================================================== *)
(** * The discrete Fourier transforms                                    *)
(* ===================================================================== *)

(** [i = complex2(0, 1)]. *)
Definition i_unit : complex2 := Complex2 0 1.

(** [c*i*n*k/N], the argument of [exp2] in the two direct transforms,
    with [c = -2*math.pi] forwards and [c = 2*math.pi] backwards. *)
Definition dft_exponent (c : R) (n k N : nat) : result complex2 :=
  __div__ (__mul__ (__mul__ (__rmul__ i_unit c) (Flt (INR n))) (Flt (INR k)))
          (Flt (INR N)).

(** The body shared by [disc_fourier] and [disc_inv_fourier]: for each
    output index the inner loop accumulates into [result], which is then
    divided by [math.sqrt(N)] and appended. *)
Definition dft_loops (c : R) (x : list num) : result (list complex2) :=
  let N := length x in
  mapM (fun k =>
          result <-
            for_each (range N)
              (fun result n =>
                 xn <- getitem x n ;;
                 e <- dft_exponent c n k N ;;
                 Ok (__iadd__ result (py_mul xn (Cx (exp2 (Cx e))))))
              (Complex2 0 0) ;;
          __div__ result (Flt (sqrt (INR N))))
       (range N).

Definition disc_fourier (x : list num) : result (list complex2) :=
  dft_loops (-2 * PI) x.

(** In the source the outer index is [n] and the inner one [k]; the
    exponent [2*math.pi*i*n*k/N] is symmetric in the two. *)
Definition disc_inv_fourier (X : list num) : result (list complex2) :=
  let N := length X in
  mapM (fun n =>
          result <-
            for_each (range N)
              (fun result k =>
                 Xk <- getitem X k ;;
                 e <- dft_exponent (2 * PI) n k N ;;
                 Ok (__iadd__ result (py_mul Xk (Cx (exp2 (Cx e))))))
              (Complex2 0 0) ;;
          __div__ result (Flt (sqrt (INR N))))
       (range N).

(** The slices [x[0::2]] and [x[1::2]]. *)
Fixpoint slice_even {A} (x : list A) : list A :=
  match x with
  | [] => []
  | a :: r => a :: match r with [] => [] | _ :: r' => slice_even r' end
  end.

Definition slice_odd {A} (x : list A) : list A := slice_even (tl x).

(** The twiddled odd coefficient
    [inv*exp2(-2*inv*i*math.pi*k/N)*odd[k]]. *)
Definition dfft_T (inv : Z) (N : nat) (odd : list complex2) (k : nat)
  : result complex2 :=
  e <- __div__ (__mul__ (__mul__ (__rmul__ i_unit (IZR (-2 * inv)))
                                 (Flt PI))
                        (Flt (INR k)))
               (Flt (INR N)) ;;
  ok <- getitem odd k ;;
  Ok (__mul__ (__rmul__ (exp2 (Cx e)) (IZR inv)) (Cx ok)).

(** Everything [dfft] does once the two half transforms are known. *)
Definition dfft_combine (inv s : Z) (N : nat) (even odd : list complex2)
  : result (list complex2) :=
  T <- mapM (dfft_T inv N odd) (range (N / 2)) ;;
  lo <- mapM (fun k => ek <- getitem even k ;; Tk <- getitem T k ;;
                       Ok (__add__ ek (Cx Tk))) (range (N / 2)) ;;
  hi <- mapM (fun k => ek <- getitem even k ;; Tk <- getitem T k ;;
                       Ok (__sub__ ek (Cx Tk))) (range (N / 2)) ;;
  let result := lo ++ hi in
  if (s =? 1)%Z
  then mapM (fun x => __div__ x (Flt (sqrt (INR N)))) result
  else Ok result.

(** [dfft(x, s=1, inverse=False)].  The recursive calls pass [2*s] and
    leave [inverse] at its default. *)
Equations? dfft (x : list num) (s : Z) (inverse : bool)
  : result (list complex2) by wf (length x) lt :=
dfft x s inverse with le_lt_dec (length x) 1 := {
  | left _ =>
      x0 <- getitem x 0 ;;
      match x0 with
      | Cx z => Ok [z]
      | Flt r => Ok [Complex2 r 0]
      end
  | right _ =>
      if (0 <? length x mod 2)%nat then Raise InvalidLength
      else
        even <- dfft (slice_even x) (2 * s) false ;;
        odd <- dfft (slice_odd x) (2 * s) false ;;
        dfft_combine (if inverse then (-1)%Z else 1%Z) s (length x) even odd
  }.
Proof.
  all: assert (Hle : forall n (y : list num), (length y <= n)%nat ->
                (length (slice_even y) <= length y)%nat)
         by (induction n as [|n IH]; intros [|a [|b r]] Hn; simpl in *;
             try lia; specialize (IH r); lia).
  - destruct x as [|a [|b r]]; simpl in *; try lia.
    specialize (Hle (length r) r); lia.
  - destruct x as [|a [|b [|c r]]]; simpl in *; try lia.
    specialize (Hle (length r) r); lia.
Qed.

(* ===================================================================== *)
(** * [runge_kutta4]                                                     *)
(* ===================================================================== *)

(** The operators [runge_kutta4] applies to a state: [y1 + y2], [y * a],
    [a * y] and [y / a] for a float [a]. *)
Class StateOps (Y : Type) : Type := {
  y_add : Y -> Y -> Y;
  y_mul : Y -> R -> Y;
  y_rmul : R -> Y -> Y;
  y_div : Y -> R -> result Y
}.


(** [runge_kutta4] with a float time and a float step
    ([Py2.runge_kutta4] has the int ones). *)
Definition runge_kutta4 {Y} `{StateOps Y}
  (y : Y) (f : R -> Y -> Y) (t dt : R) : result Y :=
  let k1 := f t y in
  h1 <- y_div (y_mul k1 dt) 2 ;;
  let k2 := f (t + dt / 2) (y_add y h1) in
  h2 <- y_div (y_mul k2 dt) 2 ;;
  let k3 := f (t + dt / 2) (y_add y h2) in
  let k4 := f (t + dt) (y_add y (y_rmul dt k3)) in
  Ok (y_add y (y_rmul (dt / 6)
                 (y_add (y_add (y_add k1 (y_rmul 2 k2)) (y_rmul 2 k3)) k4))).


(** Floats are states. *)
#[export] Instance float_ops : StateOps R := {
  y_add := Rplus;
  y_mul := fun y a => y * a;
  y_rmul := fun a y => a * y;
  y_div := fdiv
}.

(** [class vector3], as far as the stepper uses it.  [__div__] guards
    with [scalar is not 0], which only the int [0] fails; the stepper
    divides by the literal [2]. *)
Record vector3 : Type :=
  Vector3 { vx : R ; vy : R ; vz : R ; vector_type : string }.

#[export] Instance vector3_ops : StateOps vector3 := {
  y_add := fun u v =>
    Vector3 (vx u + vx v) (vy u + vy v) (vz u + vz v) (vector_type u);
  y_mul := fun u a =>
    Vector3 (a * vx u) (a * vy u) (a * vz u) (vector_type u);
  y_rmul := fun a u =>
    Vector3 (a * vx u) (a * vy u) (a * vz u) (vector_type u);
  y_div := fun u a =>
    if Reqb a 0 then Raise ZeroDivisionError
    else Ok (Vector3 (vx u / a) (vy u / a) (vz u / a) (vector_type u))
}.

(* ===================================================================== *)
(** * The root finders                                                   *)
(* ===================================================================== *)

(** [range(n)] with the loop index as an int. *)
Definition zrange (n : Z) : list Z := map Z.of_nat (range (Z.to_nat n)).

(** [if a>b: a, b = b, a]. *)
Definition reorder (a b : R) : R * R :=
  if Rgtb a b then (b, a) else (a, b).

(** The loop of [num_bisection]; the state is [(a, b, c)].  The [print]
    before the [raise] is not modelled. *)
Definition bisection_body (function : R -> R) (iterations : Z) (tol : R)
  (i : Z) (st : R * R * R) : step (R * R * R) (option R) :=
  let '(a, b, c) := st in
  let '(a, b) := if Rgtb (function c * function a) 0 then (c, b) else (a, c) in
  let c := (a + b) / 2 in
  if (Reqb (function c) 0 ||
      (Rleb (- tol) ((a - b) / 2) && Rleb ((a - b) / 2) tol))%bool
  then Exit (Ok (Some c))
  else if (i =? iterations - 1)%Z then Exit (Raise NoConvergence)
  else Next (a, b, c).

(** [num_bisection]; [Ok None] is the [None] Python returns when control
    runs off the end of the function. *)
Definition num_bisection (function : R -> R) (a b : R) (iterations : Z)
  : result (option R) :=
  let iterations := Z.sqrt (iterations ^ 2) in
  let tol := 0.000001 in
  let '(a, b) := reorder a b in
  let c := (a + b) / 2 in
  for_loop [a; b; c]
    (fun letter (_ : unit) =>
       if Reqb (function letter) 0 then Exit (Ok (Some letter)) else Next tt)
    (fun _ =>
       for_loop (zrange (iterations - 1))
         (bisection_body function iterations tol)
         (fun _ => Ok None)
         (a, b, c))
    tt.

(** The loop of [num_linear]; the state is [(a, b, c)], with [c] unbound
    until the first turn has assigned it. *)
Definition linear_body (function : R -> R)
  (i : Z) (st : R * R * option R) : step (R * R * option R) R :=
  let '(a, b, _) := st in
  let fa := function a in
  let fb := function b in
  match (q <- fdiv fb fa ;; d <- fdiv (b - a) (q - 1) ;; Ok (a - d)) with
  | Raise e => Exit (Raise e)
  | Ok c =>
      let new := function c in
      if Reqb new 0 then Exit (Ok c)
      else if Rgtb (new * function a) 0 then Next (c, b, Some c)
      else Next (a, c, Some c)
  end.

Definition num_linear (function : R -> R) (a b : R) (iterations : Z)
  : result R :=
  let iterations := Z.sqrt (iterations ^ 2) in
  let '(a, b) := reorder a b in
  for_loop (zrange iterations)
    (linear_body function)
    (fun st => match snd st with
               | Some c => Ok c
               | None => Raise UnboundLocalError
               end)
    (a, b, None).

(** The loop of [num_secant], on floats; the state is
    [(guess1, guess2)].  The [print guess1] is not modelled. *)
Definition secant_body (function : R -> R) (tol : R)
  (i : Z) (st : R * R) : step (R * R) R :=
  let '(guess1, guess2) := st in
  let f1 := function guess1 in
  let f2 := function guess2 in
  if (Reqb f1 0 ||
      (Rleb (- tol) (guess1 - guess2) && Rleb (guess1 - guess2) tol))%bool
  then Exit (Ok guess1)
  else if Reqb f2 0 then Exit (Ok guess2)
  else
    match fdiv (f1 * (guess1 - guess2)) (f1 - f2) with
    | Raise e => Exit (Raise e)
    | Ok d => Next (guess1 - d, guess1)
    end.

Definition num_secant (function : R -> R) (guess1 guess2 : R)
  (iterations : Z) (tol : R) : result R :=
  for_loop (zrange iterations)
    (secant_body function tol)
    (fun st => Ok (fst st))
    (guess1, guess2).

(** The default [tol = 0.000001] of [num_secant]. *)
Definition secant_tol : R := 0.000001.

(** [num_newton] on floats; the state is the current guess [c]. *)
Definition newton_body (function derivative : R -> R)
  (i : Z) (c : R) : step R R :=
  let fc := function c in
  if Reqb fc 0 then Exit (Ok c)
  else
    match fdiv fc (derivative c) with
    | Raise e => Exit (Raise e)
    | Ok d => Next (c - d)
    end.

Definition num_newton (function derivative : R -> R) (guess : R)
  (iterations : Z) : result R :=
  for_loop (zrange iterations)
    (newton_body function derivative)
    (fun c => Ok c)
    guess.

(* ===================================================================== *)
(** * The differentiators                                                *)
(* ===================================================================== *)

(** [diff]: the samples are pairs [(x, y)] of floats; [res.append] adds
    at the end. *)
Definition diff (values : list (R * R)) : result (list (R * R)) :=
  for_each (range (length values - 1))
    (fun res i =>
       p1 <- getitem values i ;;
       p2 <- getitem values (i + 1) ;;
       let '(x1, y1) := p1 in
       let '(x2, y2) := p2 in
       if negb (Reqb x2 x1)
       then d <- fdiv (y2 - y1) (x2 - x1) ;; Ok (res ++ [(x1, d)])
       else Ok res)
    [].

(** One turn of the loop of [diff_5], for [i] in
    [range(2, len(values)-2)]. *)
Definition diff_5_body (values : list (R * R))
  (res : list (R * R)) (i : nat) : result (list (R * R)) :=
  p1 <- getitem values (i + 1) ;;
  p0 <- getitem values i ;;
  let h := fst p1 - fst p0 in
  q1 <- getitem values (i + 1) ;;
  let y1 := snd q1 in
  q2 <- getitem values (i + 2) ;;
  let y2 := snd q2 in
  q_1 <- getitem values (i - 1) ;;
  let y_1 := snd q_1 in
  q_2 <- getitem values (i - 2) ;;
  let y_2 := snd q_2 in
  if negb (Reqb h 0)
  then xi <- getitem values i ;;
       d <- fdiv (- y2 + 8 * y1 - 8 * y_1 + y_2) (12 * h) ;;
       Ok (res ++ [(fst xi, d)])
  else Ok res.

(** [diff_5], on samples that are pairs of floats. *)
Definition diff_5 (values : list (R * R)) : result (list (R * R)) :=
  for_each (seq 2 (length values - 2 - 2)) (diff_5_body values) [].

(* ===================================================================== *)
(** * [complex2.phi_rotate]                                              *)
(* ===================================================================== *)

Definition phi_rotate (self : complex2) (angle : R) : complex2 :=
  let sin := sin angle in
  let cos := cos angle in
  Complex2 (cos * re self - sin * im self) (sin * re self + cos * im self).

(* ===================================================================== *)
(** * [class vector3]                                                    *)
(* ===================================================================== *)

Module V3.

Definition mag (self : vector3) : R :=
  sqrt (vx self ^ 2 + vy self ^ 2 + vz self ^ 2).

(** [norm] returns [self] itself when the magnitude is zero. *)
Definition norm (self : vector3) : result vector3 :=
  let mag := mag self in
  if Reqb mag 0 then Ok self
  else
    x <- fdiv (vx self) mag ;;
    y <- fdiv (vy self) mag ;;
    z <- fdiv (vz self) mag ;;
    Ok (Vector3 x y z (vector_type self)).

Definition __add__ (self other : vector3) : vector3 :=
  Vector3 (vx self + vx other) (vy self + vy other) (vz self + vz other)
          (vector_type self).

Definition __sub__ (self other : vector3) : vector3 :=
  Vector3 (vx self - vx other) (vy self - vy other) (vz self - vz other)
          (vector_type self).

Definition __mul__ (self : vector3) (scalar : R) : vector3 :=
  Vector3 (scalar * vx self) (scalar * vy self) (scalar * vz self)
          (vector_type self).

(** [__div__] on a float [scalar]: the guard [scalar is not 0] lets every
    float through, and the division itself raises on [0.0]. *)
Definition __div__ (self : vector3) (scalar : R) : result vector3 :=
  x <- fdiv (vx self) scalar ;;
  y <- fdiv (vy self) scalar ;;
  z <- fdiv (vz self) scalar ;;
  Ok (Vector3 x y z (vector_type self)).

Definition dot (self other : vector3) : R :=
  vx self * vx other + vy self * vy other + vz self * vz other.

Definition cross (self other : vector3) (vector_answer : string) : vector3 :=
  Vector3 (vy self * vz other - vy other * vz self)
          (vx other * vz self - vx self * vz other)
          (vx self * vy other - vy self * vx other)
          vector_answer.

Definition phi_rotate (self : vector3) (angle : R) (origin : vector3)
  : vector3 :=
  let diff := __sub__ self origin in
  let sin := sin angle in
  let cos := cos angle in
  let new := Vector3 (cos * vx diff - sin * vy diff)
                     (sin * vx diff + cos * vy diff)
                     (vz diff) (vector_type self) in
  __add__ new origin.

End V3.

(* ===================================================================== *)
(** * [class ball]                                                       *)
(* ===================================================================== *)

Record ball : Type := Ball {
  mass : R ;
  radius : R ;
  pos : vector3 ;
  vel : vector3
}.

(** [ball(mass, radius, x, y, xsp, ysp)]. *)
Definition ball_init (mass radius x y xsp ysp : R) : ball :=
  Ball mass radius (Vector3 x y 0 "displacement")
                   (Vector3 xsp ysp 0 "velocity").

(** [move] assigns [self.pos]; the ball after the call is returned. *)
Definition move (self : ball) (dt : R) : ball :=
  Ball (mass self) (radius self)
       (V3.__add__ (pos self) (V3.__mul__ (vel self) dt))
       (vel self).

Definition zmf_vel (self other : ball) : result vector3 :=
  let summass := mass self + mass other in
  V3.__div__ (V3.__add__ (V3.__mul__ (vel self) (mass self))
                         (V3.__mul__ (vel other) (mass other)))
             summass.

Definition momentum (self : ball) : vector3 :=
  V3.__mul__ (vel self) (mass self).

(** [collide] assigns [self.vel] and [other.vel] after both new
    velocities are computed; the two balls after the call are
    returned. *)
Definition collide (self other : ball) (is_elastic : bool)
  : result (ball * ball) :=
  let posdif := V3.__sub__ (pos self) (pos other) in
  let veldif := V3.__sub__ (vel self) (vel other) in
  let summass := mass self + mass other in
  vs <-
    (if is_elastic then
       a1 <- fdiv (2 * mass other) summass ;;
       b1 <- fdiv (V3.dot veldif posdif) (V3.mag posdif ^ 2) ;;
       let v1 := V3.__sub__ (vel self)
                   (V3.__mul__ (V3.__mul__ posdif a1) b1) in
       a2 <- fdiv (-2 * mass self) summass ;;
       b2 <- fdiv (V3.dot veldif posdif) (V3.mag posdif ^ 2) ;;
       let v2 := V3.__sub__ (vel other)
                   (V3.__mul__ (V3.__mul__ posdif a2) b2) in
       Ok (v1, v2)
     else
       v1 <- zmf_vel self other ;;
       v2 <- zmf_vel self other ;;
       Ok (v1, v2)) ;;
  Ok (Ball (mass self) (radius self) (pos self) (fst vs),
      Ball (mass other) (radius other) (pos other) (snd vs)).

Definition collision_check (self other : ball) : bool :=
  Rleb (V3.mag (V3.__sub__ (pos self) (pos other)))
       (radius self + radius other).

(** Twice the kinetic energy, [m |v|^2]. *)
Definition twice_kinetic_energy (b : ball) : R :=
  mass b * V3.dot (vel b) (vel b).

(* ===================================================================== *)
(** * [class point_source]                                               *)
(* ===================================================================== *)

Record point_source : Type := PointSource {
  ps_ball : ball ;
  speed : R ;
  frequency : R ;
  wavelength : R ;
  wavefront : R ;
  mousedown : bool
}.

(** [point_source(speed, frequency, wavelength, radius, x, y, xsp, ysp)];
    [None] is the default of [frequency] and of [wavelength].  When both
    are given the three assignments of the inner [if] are overwritten by
    the three that follow it. *)
Definition point_source_init (speed0 : R) (frequency0 wavelength0 : option R)
  (radius x y xsp ysp : R) : result point_source :=
  let b := ball_init 0.1 radius x y xsp ysp in
  match frequency0 with
  | Some f =>
      w <- fdiv speed0 f ;;
      Ok (PointSource b speed0 f w 0 false)
  | None =>
      match wavelength0 with
      | Some w =>
          f <- fdiv speed0 w ;;
          Ok (PointSource b speed0 f w 0 false)
      | None =>
          Raise (StrExn
            "Provide two out of three of speed, wavelength or frequency")
      end
  end.

(** [radiate] adds to [self.wavefront]. *)
Definition radiate (self : point_source) (dt : R) : point_source :=
  PointSource (ps_ball self) (speed self) (frequency self)
              (wavelength self) (wavefront self + speed self * dt)
              (mousedown self).

(* ===================================================================== *)
(** * Python 2 numbers: ints and floats                                  *)
(* ===================================================================== *)

Module Py2.

(** A number is an [int] (or [long]) or a [float]. *)
Inductive number : Type :=
| Int (n : Z)
| Float (r : R).

Definition to_R (a : number) : R :=
  match a with
  | Int n => IZR n
  | Float r => r
  end.

(** [a + b], [a - b], [a * b]: an int when both are ints, a float
    otherwise. *)
Definition add (a b : number) : number :=
  match a, b with
  | Int m, Int n => Int (m + n)
  | _, _ => Float (to_R a + to_R b)
  end.

Definition sub (a b : number) : number :=
  match a, b with
  | Int m, Int n => Int (m - n)
  | _, _ => Float (to_R a - to_R b)
  end.

Definition mul (a b : number) : number :=
  match a, b with
  | Int m, Int n => Int (m * n)
  | _, _ => Float (to_R a * to_R b)
  end.


(** [a / b]: between two ints the quotient is floored. *)
Definition div (a b : number) : result number :=
  match a, b with
  | Int m, Int n =>
      if (n =? 0)%Z then Raise ZeroDivisionError else Ok (Int (m / n))
  | _, _ =>
      if Reqb (to_R b) 0 then Raise ZeroDivisionError
      else Ok (Float (to_R a / to_R b))
  end.

(** [a == 0]. *)
Definition is_zero (a : number) : bool :=
  match a with
  | Int n => (n =? 0)%Z
  | Float r => Reqb r 0
  end.

(** [a**2]. *)
Definition square (a : number) : number :=
  match a with
  | Int n => Int (n ^ 2)
  | Float r => Float (r ^ 2)
  end.

(** [math.sqrt(a)], always a float. *)
Definition math_sqrt (a : number) : number := Float (sqrt (to_R a)).

(** [complex2], whose constructor accepts [int], [long] and [float]
    components. *)
Record complex2 : Type := Complex2 { re : number ; im : number }.

(** The right operand of an operator: a number or a [complex2]. *)
Inductive operand : Type :=
| Num (a : number)
| Cx (z : complex2).

Definition mag (self : complex2) : number :=
  math_sqrt (add (square (re self)) (square (im self))).

Definition __mul__ (self : complex2) (other : operand) : complex2 :=
  match other with
  | Cx o => Complex2 (sub (mul (re o) (re self)) (mul (im o) (im self)))
                     (add (mul (re o) (im self)) (mul (im o) (re self)))
  | Num o => Complex2 (mul o (re self)) (mul o (im self))
  end.

Definition __div__ (self : complex2) (other : operand) : result complex2 :=
  match other with
  | Num o =>
      if is_zero o then Raise DivideByZero
      else
        r <- div (re self) o ;;
        i <- div (im self) o ;;
        Ok (Complex2 r i)
  | Cx o =>
      if is_zero (mag o) then Raise DivideByZero
      else
        real <- div (add (mul (re self) (re o)) (mul (im self) (im o)))
                    (add (square (re o)) (square (im o))) ;;
        imaginary <- div (sub (mul (im self) (re o)) (mul (re self) (im o)))
                         (add (square (re o)) (square (im o))) ;;
        Ok (Complex2 real imaginary)
  end.

(** [runge_kutta4] on numbers: the state [y], the time [t] and the step
    [dt] are ints or floats, and [2] and [6] are int literals. *)
Definition runge_kutta4 (y : number) (f : number -> number -> number)
  (t dt : number) : result number :=
  let k1 := f t y in
  h2 <- div dt (Int 2) ;;
  d1 <- div (mul k1 dt) (Int 2) ;;
  let k2 := f (add t h2) (add y d1) in
  h3 <- div dt (Int 2) ;;
  d2 <- div (mul k2 dt) (Int 2) ;;
  let k3 := f (add t h3) (add y d2) in
  let k4 := f (add t dt) (add y (mul dt k3)) in
  h6 <- div dt (Int 6) ;;
  Ok (add y (mul h6 (add (add (add k1 (mul (Int 2) k2)) (mul (Int 2) k3))
                         k4))).

End Py2.



(* ===================================================================== *)
(** * Mathematical counterparts                                          *)
(* ===================================================================== *)

(** The divisors [__div__] refuses: the float [0], and a [complex2] of
    magnitude [0]. *)
Definition zero_divisor (other : num) : Prop :=
  match other with
  | Flt o => o = 0
  | Cx o => mag o = 0
  end.


(** The samples of [p] at [n] points from [x0] in steps of [h]. *)
Definition uniform_samples (p : R -> R) (x0 h : R) (n : nat)
  : list (R * R) :=
  map (fun i => (x0 + INR i * h, p (x0 + INR i * h))) (seq 0 n).

(** Complex arithmetic, read off the operators of the class. *)
Definition C0 : complex2 := Complex2 0 0.
Definition C1 : complex2 := Complex2 1 0.
Definition cadd (z w : complex2) : complex2 := __add__ z (Cx w).
Definition csub (z w : complex2) : complex2 := __sub__ z (Cx w).
Definition cmul (z w : complex2) : complex2 := __mul__ z (Cx w).
Definition cscale (r : R) (z : complex2) : complex2 := __rmul__ z r.

(** The point of the unit circle at angle [t]. *)
Definition cis (t : R) : complex2 := Complex2 (cos t) (sin t).

(** [h 0 + h 1 + ... + h (n-1)], summed in the order of a loop. *)
Fixpoint csum (h : nat -> complex2) (n : nat) : complex2 :=
  match n with
  | O => C0
  | S m => cadd (csum h m) (h m)
  end.

(** The sum [x[0] e^(i c 0 k / N) + ... + x[N-1] e^(i c (N-1) k / N)] of
    the discrete Fourier transform, before it is normalised. *)
Definition dft_sum (c : R) (x : list num) (k : nat) : complex2 :=
  csum (fun n => cmul (to_complex2 (nth n x (Flt 0)))
                      (cis (c * INR n * INR k / INR (length x))))
       (length x).

(** The unitary transform: the sum scaled by [1 / sqrt N]. *)
Definition dft (c : R) (x : list num) : list complex2 :=
  map (fun k => cscale (/ sqrt (INR (length x))) (dft_sum c x k))
      (seq 0 (length x)).

(** The twiddle factor of [dfft] at index [k]: [inv * e^(-2 inv i pi k/N)]. *)
Definition twiddle (inv : Z) (N k : nat) : complex2 :=
  cscale (IZR inv) (cis (IZR (-2 * inv) * PI * INR k / INR N)).

(** The two halves [even[k] + T[k]] and [even[k] - T[k]], [k < N/2]. *)
Definition butterfly (inv : Z) (N : nat) (even odd : list complex2)
  : list complex2 :=
  map (fun k => cadd (nth k even C0) (cmul (twiddle inv N k) (nth k odd C0)))
      (seq 0 (N / 2))
  ++
  map (fun k => csub (nth k even C0) (cmul (twiddle inv N k) (nth k odd C0)))
      (seq 0 (N / 2)).

(** What [diff] emits at index [i]: the forward difference quotient at
    [x i], or nothing when the next abscissa is the same. *)
Definition forward_difference (values : list (R * R)) (i : nat)
  : list (R * R) :=
  let p1 := nth i values (0, 0) in
  let p2 := nth (i + 1) values (0, 0) in
  if Reqb (fst p2) (fst p1) then []
  else [(fst p1, (snd p2 - snd p1) / (fst p2 - fst p1))].

(** The complex conjugate. *)
Definition cconj (z : complex2) : complex2 := Complex2 (re z) (- im z).

(** The sum of the squared magnitudes of a list of coefficients. *)
Definition energy (l : list complex2) : R :=
  fold_right Rplus 0 (map (fun z => re z ^ 2 + im z ^ 2) l).

(** Lengths the radix-2 recursion accepts. *)
Definition power_of_two (n : nat) : Prop := exists p : nat, n = (2 ^ p)%nat.

(* ===================================================================== *)
(** * Comparisons and loops: basic facts                                 *)
(* ===================================================================== *)

Lemma Reqb_true x y : x = y -> Reqb x y = true.
Proof. intros H. unfold Reqb. destruct (Req_dec_T x y); congruence. Qed.

Lemma Reqb_false x y : x <> y -> Reqb x y = false.
Proof. intros H. unfold Reqb. destruct (Req_dec_T x y); congruence. Qed.

Lemma Rleb_true x y : x <= y -> Rleb x y = true.
Proof. intros H. unfold Rleb. destruct (Rle_dec x y); tauto. Qed.

Lemma Rleb_false x y : ~ x <= y -> Rleb x y = false.
Proof. intros H. unfold Rleb. destruct (Rle_dec x y); tauto. Qed.

Lemma Rgtb_true x y : x > y -> Rgtb x y = true.
Proof. intros H. unfold Rgtb. destruct (Rgt_dec x y); tauto. Qed.

Lemma Rgtb_false x y : ~ x > y -> Rgtb x y = false.
Proof. intros H. unfold Rgtb. destruct (Rgt_dec x y); tauto. Qed.

Lemma Reqb_spec x y : Reqb x y = true <-> x = y.
Proof.
  unfold Reqb. destruct (Req_dec_T x y); split; intros; congruence.
Qed.

(** Settle one comparison of closed float expressions in the goal. *)
Ltac float_compare :=
  cbv beta;
  match goal with
  | |- context [Reqb ?x ?y] =>
      first [ rewrite (Reqb_true x y) by lra
            | rewrite (Reqb_false x y) by lra ]
  | |- context [Rleb ?x ?y] =>
      first [ rewrite (Rleb_true x y) by lra
            | rewrite (Rleb_false x y) by lra ]
  | |- context [Rgtb ?x ?y] =>
      first [ rewrite (Rgtb_true x y) by lra
            | rewrite (Rgtb_false x y) by lra ]
  end.

Ltac float_run := repeat (float_compare; cbn [orb andb fst snd]).

Lemma fdiv_ok x y : y <> 0 -> fdiv x y = Ok (x / y).
Proof. intros H. unfold fdiv. rewrite Reqb_false by assumption. reflexivity. Qed.

Lemma fdiv_zero x : fdiv x 0 = Raise ZeroDivisionError.
Proof. unfold fdiv. rewrite Reqb_true by reflexivity. reflexivity. Qed.

(** [int(math.sqrt(iterations**2))] is the absolute value. *)
Lemma sqrt_square_abs (n : Z) : Z.sqrt (n ^ 2) = Z.abs n.
Proof.
  replace (n ^ 2)%Z with (Z.abs n * Z.abs n)%Z by lia.
  apply Z.sqrt_square. lia.
Qed.

Lemma zrange_pos (n : Z) :
  (1 <= n)%Z -> zrange n = 0%Z :: map Z.of_nat (seq 1 (Z.to_nat n - 1)).
Proof.
  intros Hn. unfold zrange, range.
  destruct (Z.to_nat n) as [|m] eqn:E; [lia|].
  simpl. rewrite Nat.sub_0_r. reflexivity.
Qed.

(* ===================================================================== *)
(** * Complex division                                                   *)
(* ===================================================================== *)

Lemma mag_zero_iff (z : complex2) : mag z = 0 <-> re z = 0 /\ im z = 0.
Proof.
  unfold mag. split.
  - intros H. apply sqrt_eq_0 in H; [|nra]. split; nra.
  - intros [-> ->]. replace (0 ^ 2 + 0 ^ 2) with 0 by ring. apply sqrt_0.
Qed.

(** On float operands, division raises [DivideByZero] exactly when the
    divisor has magnitude zero, that is a float equal to [0] or a
    [complex2] with both components [0]; for every other divisor it
    returns a quotient whose product with the divisor is the dividend. *)
Theorem complex2_div_spec (self : complex2) (other : num) :
  (__div__ self other = Raise DivideByZero <-> zero_divisor other) /\
  (zero_divisor other <->
     match other with
     | Flt o => o = 0
     | Cx o => re o = 0 /\ im o = 0
     end) /\
  (~ zero_divisor other ->
     exists q, __div__ self other = Ok q /\ __mul__ q other = self).
Proof.
  destruct self as [a b], other as [o | [c d]]; unfold zero_divisor.
  - split; [|split].
    + simpl. split.
      * intros H. destruct (Req_dec_T o 0) as [E|E]; [assumption|].
        rewrite Reqb_false in H by assumption. discriminate.
      * intros ->. rewrite Reqb_true by reflexivity. reflexivity.
    + tauto.
    + intros Ho. simpl. rewrite Reqb_false by assumption.
      eexists; split; [reflexivity|]. simpl. f_equal; field; assumption.
  - split; [|split].
    + simpl. split.
      * intros H. destruct (Req_dec_T (mag (Complex2 c d)) 0) as [E|E];
          [assumption|].
        rewrite Reqb_false in H by assumption. discriminate.
      * intros H. rewrite Reqb_true by assumption. reflexivity.
    + apply (mag_zero_iff (Complex2 c d)).
    + intros Hm. simpl. rewrite Reqb_false by assumption.
      assert (Hcd : c ^ 2 + d ^ 2 <> 0).
      { intros E. apply Hm. apply (proj2 (mag_zero_iff (Complex2 c d))).
        simpl. split; nra. }
      eexists; split; [reflexivity|]. simpl.
      f_equal; field; intros E; apply Hcd; lra.
Qed.

(** The quotient of [3 + 4i] by [1 + 2i], and by the float [2]. *)
Lemma complex2_div_spec_witness :
  (exists q, __div__ (Complex2 3 4) (Cx (Complex2 1 2)) = Ok q /\
             __mul__ q (Cx (Complex2 1 2)) = Complex2 3 4) /\
  (exists q, __div__ (Complex2 3 4) (Flt 2) = Ok q /\
             __mul__ q (Flt 2) = Complex2 3 4).
Proof.
  split.
  - apply (proj2 (proj2 (complex2_div_spec (Complex2 3 4) (Cx (Complex2 1 2))))).
    simpl. intros H. apply mag_zero_iff in H. simpl in H. lra.
  - apply (proj2 (proj2 (complex2_div_spec (Complex2 3 4) (Flt 2)))).
    simpl. lra.
Defined.

(* ===================================================================== *)
(** * The root finders                                                   *)
(* ===================================================================== *)

(** C9.  With at least one iteration, a second guess that is an exact
    root, a first guess that is not, and the guesses further apart than
    the tolerance, [num_secant] returns the second guess in its first
    turn. *)
Theorem num_secant_returns_guess2
  (function : R -> R) (guess1 guess2 : R) (iterations : Z) :
  (1 <= iterations)%Z ->
  function guess2 = 0 ->
  function guess1 <> 0 ->
  Rabs (guess1 - guess2) > 0.000001 ->
  secant_body function secant_tol 0 (guess1, guess2) = Exit (Ok guess2) /\
  num_secant function guess1 guess2 iterations secant_tol = Ok guess2.
Proof.
  intros Hit H2 H1 Hfar.
  assert (Hbody :
    secant_body function secant_tol 0 (guess1, guess2) = Exit (Ok guess2)).
  { unfold secant_body, secant_tol.
    rewrite (Reqb_false (function guess1)) by assumption.
    rewrite (Reqb_true (function guess2)) by assumption.
    assert (Hout : (Rleb (- (0.000001)) (guess1 - guess2) &&
                    Rleb (guess1 - guess2) 0.000001)%bool = false).
    { unfold Rabs in Hfar.
      destruct (Rcase_abs (guess1 - guess2)).
      - rewrite (Rleb_false (- (0.000001))) by lra. reflexivity.
      - rewrite (Rleb_false (guess1 - guess2)) by lra.
        apply Bool.andb_false_r. }
    rewrite Hout. reflexivity. }
  split; [exact Hbody|].
  unfold num_secant. rewrite zrange_pos by assumption.
  cbn [for_loop]. rewrite Hbody. reflexivity.
Qed.

(** [x*x - 1] with guesses [3] and [1]. *)
Lemma num_secant_returns_guess2_witness :
  num_secant (fun x => x * x - 1) 3 1 5 secant_tol = Ok 1.
Proof.
  apply (num_secant_returns_guess2 (fun x => x * x - 1) 3 1 5).
  - lia.
  - lra.
  - lra.
  - unfold Rabs. destruct (Rcase_abs (3 - 1)); lra.
Defined.

(** C10.  Whenever a turn of the loop starts with [function(a)] exactly
    zero, the quotient [fb/fa] raises; in particular a call with at least
    one iteration whose reordered [a] is an exact root raises
    [ZeroDivisionError] instead of returning [a]. *)
Theorem num_linear_root_at_a
  (function : R -> R) (a b : R) (iterations : Z) :
  (1 <= iterations)%Z ->
  function (fst (reorder a b)) = 0 ->
  (forall i a' b' c', function a' = 0 ->
     linear_body function i (a', b', c') = Exit (Raise ZeroDivisionError)) /\
  num_linear function a b iterations = Raise ZeroDivisionError.
Proof.
  intros Hit Ha.
  assert (Hbody : forall i a' b' c', function a' = 0 ->
     linear_body function i (a', b', c') = Exit (Raise ZeroDivisionError)).
  { intros i a' b' c' H0. unfold linear_body. rewrite H0, fdiv_zero.
    reflexivity. }
  split; [exact Hbody|].
  unfold num_linear. rewrite sqrt_square_abs.
  destruct (reorder a b) as [a0 b0]. simpl in Ha.
  rewrite zrange_pos by lia. cbn [for_loop].
  rewrite Hbody by assumption. reflexivity.
Qed.

(** [x - 1] on the bracket [(1, 3)]: [a = 1] is the root. *)
Lemma num_linear_root_at_a_witness :
  num_linear (fun x => x - 1) 1 3 4 = Raise ZeroDivisionError.
Proof.
  apply (num_linear_root_at_a (fun x => x - 1) 1 3 4).
  - lia.
  - unfold reorder. rewrite Rgtb_false by lra. simpl. lra.
Defined.

(** No index of [range(iterations-1)] equals [iterations - 1]. *)
Lemma zrange_lt (n i : Z) : In i (zrange n) -> (0 <= i < n)%Z.
Proof.
  unfold zrange, range. rewrite in_map_iff.
  intros [k [<- Hk]]. apply in_seq in Hk. lia.
Qed.

Lemma bisection_body_in_range (function : R -> R) (n : Z) (tol : R)
  (i : Z) (st : R * R * R) (e : exn) :
  In i (zrange (n - 1)) ->
  bisection_body function n tol i st <> Exit (Raise e).
Proof.
  intros Hi. apply zrange_lt in Hi.
  unfold bisection_body. destruct st as [[a b] c].
  destruct (Rgtb (function c * function a) 0);
    (destruct (_ || _)%bool; [discriminate|]);
    (destruct (Z.eqb_spec i (n - 1)); [lia | discriminate]).
Qed.

Lemma bisection_loop_no_raise (function : R -> R) (n : Z) (tol : R)
  (l : list Z) (st : R * R * R) (e : exn) :
  (forall i, In i l -> In i (zrange (n - 1))) ->
  for_loop l (bisection_body function n tol) (fun _ => Ok None) st
    <> Raise e.
Proof.
  revert st. induction l as [|i l IH]; intros st Hl; cbn [for_loop].
  - discriminate.
  - pose proof (bisection_body_in_range function n tol i st) as Hb.
    destruct (bisection_body function n tol i st) as [st' | r].
    + apply IH. intros j Hj. apply Hl. right. exact Hj.
    + intros ->. apply (Hb e); [apply Hl; left|]; reflexivity.
Qed.

(** Whatever the function, the bracket and the budget, [num_bisection]
    raises nothing: the test [i == iterations - 1] is made on indices of
    [range(iterations-1)], which stop at [iterations - 2]. *)
Theorem num_bisection_never_raises
  (function : R -> R) (a b : R) (iterations : Z) (e : exn) :
  num_bisection function a b iterations <> Raise e.
Proof.
  unfold num_bisection. destruct (reorder a b) as [a0 b0].
  cbn [for_loop].
  destruct (Reqb (function a0) 0); [discriminate|].
  destruct (Reqb (function b0) 0); [discriminate|].
  destruct (Reqb (function ((a0 + b0) / 2)) 0); [discriminate|].
  apply bisection_loop_no_raise. intros i Hi. exact Hi.
Qed.

(** C1.  On [x*x - 2] with the bracket [(1, 2)] and three iterations no
    checked point is a root and the half width stays above the
    tolerance, yet the call neither raises [NoConvergence] nor returns a
    number: control leaves the loop and the function returns [None]. *)
Theorem num_bisection_exhausted_returns_None :
  num_bisection (fun x => x * x - 2) 1 2 3 = Ok None.
Proof.
  unfold num_bisection.
  change (Z.sqrt (3 ^ 2)) with 3%Z.
  change (zrange (3 - 1)) with [0%Z; 1%Z].
  unfold reorder. float_compare.
  cbn [for_loop]. float_run.
  unfold bisection_body. float_run.
  change (0 =? 3 - 1)%Z with false. cbn iota.
  float_run.
  change (1 =? 3 - 1)%Z with false. cbn iota.
  reflexivity.
Qed.

(* ===================================================================== *)
(** * The Runge-Kutta step                                               *)
(* ===================================================================== *)





(* ===================================================================== *)
(** * Convolution                                                        *)
(* ===================================================================== *)

Lemma mapM_ok {A B} (f : A -> result B) (g : A -> B) (l : list A) :
  (forall a, In a l -> f a = Ok (g a)) -> mapM f l = Ok (map g l).
Proof.
  induction l as [|a l IH]; intros Hf; simpl; [reflexivity|].
  rewrite (Hf a (or_introl eq_refl)). simpl.
  rewrite IH by (intros b Hb; apply Hf; right; exact Hb).
  reflexivity.
Qed.

Lemma getitem_nth {A} (l : list A) (i : nat) (d : A) :
  (i < length l)%nat -> getitem l i = Ok (nth i l d).
Proof.
  intros Hi. unfold getitem.
  rewrite (nth_error_nth' l d Hi). reflexivity.
Qed.

Lemma getitem_map_nth {A B} (h : A -> B) (l : list A) (i : nat) (d : A) :
  (i < length l)%nat -> getitem (map h l) i = Ok (h (nth i l d)).
Proof.
  intros Hi. rewrite (getitem_nth (map h l) i (h d)).
  - rewrite map_nth. reflexivity.
  - rewrite length_map. exact Hi.
Qed.

(** The inner loop of [disc_convolve] on floats, from any index [s] and
    any partial sum. *)
Lemma convolve_inner (f g : list R) (i : nat) :
  (i < length f)%nat ->
  forall n s acc, (s + n <= length g)%nat ->
  for_each (seq s n)
    (fun sums j =>
       if (j <=? i)%nat
       then fij <- getitem (map Flt f) (i - j) ;;
            gj <- getitem (map Flt g) j ;;
            py_iadd sums (py_mul fij gj)
       else Ok sums)
    (Flt acc)
  = Ok (Flt (acc + fold_right Rplus 0
               (map (fun j => nth (i - j) f 0 * nth j g 0)
                    (filter (fun j => (j <=? i)%nat) (seq s n))))).
Proof.
  intros Hi. induction n as [|n IH]; intros s acc Hs; simpl.
  - do 2 f_equal. ring.
  - destruct (Nat.leb_spec s i) as [Hle | Hgt].
    + rewrite (getitem_map_nth Flt f (i - s) 0) by lia.
      rewrite (getitem_map_nth Flt g s 0) by lia.
      simpl. rewrite IH by lia. do 2 f_equal. ring.
    + simpl. rewrite IH by lia. reflexivity.
Qed.

(** C6, on sequences of floats.  The result has the length of [f], and
    entry [i] is the sum of [f[i-j]*g[j]] over the [j < len(g)] with
    [j <= i]. *)
Theorem disc_convolve_floats (f g : list R) :
  exists r : list R,
    disc_convolve (map Flt f) (map Flt g) = Ok (map Flt r) /\
    length r = length f /\
    forall i, (i < length f)%nat -> nth i r 0 = convolution_sum f g i.
Proof.
  exists (map (convolution_sum f g) (seq 0 (length f))).
  split; [|split].
  - unfold disc_convolve, range. rewrite !length_map, map_map.
    apply mapM_ok. intros i Hi. apply in_seq in Hi.
    rewrite (convolve_inner f g i) by lia.
    unfold convolution_sum. do 2 f_equal. ring.
  - rewrite length_map, length_seq. reflexivity.
  - intros i Hi.
    rewrite (nth_indep _ 0 (convolution_sum f g 0))
      by (rewrite length_map, length_seq; exact Hi).
    rewrite (map_nth (convolution_sum f g) (seq 0 (length f)) 0%nat i).
    rewrite seq_nth by exact Hi. reflexivity.
Qed.

(** C6 as stated fails on a [complex2] sample: the first [sums += ...]
    adds a [complex2] to the int [0], and the call raises. *)
Lemma disc_convolve_complex_raises :
  disc_convolve [Cx (Complex2 1 0)] [Flt 1] = Raise TypeError /\
  ~ exists r, disc_convolve [Cx (Complex2 1 0)] [Flt 1] = Ok r /\
              length r = 1%nat.
Proof.
  assert (H : disc_convolve [Cx (Complex2 1 0)] [Flt 1] = Raise TypeError)
    by reflexivity.
  split; [exact H|].
  intros [r [Hr _]]. rewrite H in Hr. discriminate.
Qed.

(* ===================================================================== *)
(** * Complex arithmetic                                                 *)
(* ===================================================================== *)

Lemma complex2_eq (z w : complex2) : re z = re w -> im z = im w -> z = w.
Proof. destruct z, w; simpl; intros -> ->; reflexivity. Qed.

(** Reduce an identity between complex expressions to its two real
    components and try [ring] on each. *)
Ltac complex_ring :=
  intros;
  unfold cadd, csub, cmul, cscale, C0, C1, __add__, __sub__, __mul__,
    __rmul__;
  apply complex2_eq; simpl; ring.

Lemma cadd_comm z w : cadd z w = cadd w z.
Proof. complex_ring. Qed.

Lemma cadd_assoc z w u : cadd z (cadd w u) = cadd (cadd z w) u.
Proof. complex_ring. Qed.

Lemma cadd_0_l z : cadd C0 z = z.
Proof. complex_ring. Qed.

Lemma cadd_0_r z : cadd z C0 = z.
Proof. complex_ring. Qed.

Lemma cmul_comm z w : cmul z w = cmul w z.
Proof. complex_ring. Qed.

Lemma cmul_assoc z w u : cmul z (cmul w u) = cmul (cmul z w) u.
Proof. complex_ring. Qed.

Lemma cmul_1_l z : cmul C1 z = z.
Proof. complex_ring. Qed.

Lemma cmul_1_r z : cmul z C1 = z.
Proof. complex_ring. Qed.

Lemma cmul_0_l z : cmul C0 z = C0.
Proof. complex_ring. Qed.

Lemma cmul_0_r z : cmul z C0 = C0.
Proof. complex_ring. Qed.

Lemma cmul_add_distr_l z w u : cmul z (cadd w u) = cadd (cmul z w) (cmul z u).
Proof. complex_ring. Qed.

Lemma cmul_add_distr_r z w u : cmul (cadd z w) u = cadd (cmul z u) (cmul w u).
Proof. complex_ring. Qed.

Lemma cscale_add r z w : cscale r (cadd z w) = cadd (cscale r z) (cscale r w).
Proof. complex_ring. Qed.

Lemma cscale_cmul r z w : cscale r (cmul z w) = cmul (cscale r z) w.
Proof. complex_ring. Qed.

Lemma cscale_cscale r q z : cscale r (cscale q z) = cscale (r * q) z.
Proof. complex_ring. Qed.

Lemma cscale_1 z : cscale 1 z = z.
Proof. complex_ring. Qed.

Lemma cscale_0_r r : cscale r C0 = C0.
Proof. complex_ring. Qed.

(** A product vanishes only if a factor does. *)
Lemma cmul_eq_0 z w : cmul z w = C0 -> z <> C0 -> w = C0.
Proof.
  destruct z as [p q], w as [u v]. unfold cmul, C0. simpl.
  intros H Hz. injection H as H1 H2.
  assert (Hn : p * p + q * q <> 0).
  { intros E. apply Hz.
    destruct (Rplus_sqr_eq_0 p q) as [-> ->]; [exact E | reflexivity]. }
  assert (Hu : u * (p * p + q * q) = 0).
  { replace (u * (p * p + q * q))
      with (p * (u * p - v * q) + q * (u * q + v * p)) by ring.
    rewrite H1, H2. ring. }
  assert (Hv : v * (p * p + q * q) = 0).
  { replace (v * (p * p + q * q))
      with (p * (u * q + v * p) - q * (u * p - v * q)) by ring.
    rewrite H1, H2. ring. }
  apply Rmult_integral in Hu, Hv.
  f_equal; tauto.
Qed.

(** ** The unit circle *)

Lemma cis_0 : cis 0 = C1.
Proof. unfold cis, C1. rewrite cos_0, sin_0. reflexivity. Qed.

Lemma cis_add a b : cis (a + b) = cmul (cis a) (cis b).
Proof.
  unfold cis, cmul. simpl. rewrite cos_plus, sin_plus.
  apply complex2_eq; simpl; ring.
Qed.

Lemma cis_2PI_nat (j : nat) : cis (2 * INR j * PI) = C1.
Proof.
  unfold cis, C1.
  replace (2 * INR j * PI) with (0 + 2 * INR j * PI) by ring.
  rewrite cos_period, sin_period, cos_0, sin_0. reflexivity.
Qed.

Lemma cis_neg a : cis (- a) = Complex2 (re (cis a)) (- im (cis a)).
Proof. unfold cis. simpl. rewrite cos_neg, sin_neg. reflexivity. Qed.

Lemma cis_neg_2PI_nat (j : nat) : cis (- (2 * INR j * PI)) = C1.
Proof.
  rewrite cis_neg, cis_2PI_nat. unfold C1. simpl. f_equal. ring.
Qed.

Lemma cis_PI : cis PI = Complex2 (-1) 0.
Proof. unfold cis. rewrite cos_PI, sin_PI. reflexivity. Qed.

Lemma cis_neg_PI : cis (- PI) = Complex2 (-1) 0.
Proof. rewrite cis_neg, cis_PI. simpl. f_equal. ring. Qed.

(** The only point of the circle at an angle strictly between [0] and a
    full turn, or strictly between minus a full turn and [0], is not
    [1]. *)
Lemma cis_neq_1 t : 0 < Rabs t < 2 * PI -> cis t <> C1.
Proof.
  intros [Hpos Hlt] H. unfold cis, C1 in H. injection H as Hc Hs.
  assert (Habs : cos (Rabs t) = 1 /\ sin (Rabs t) = 0).
  { unfold Rabs. destruct (Rcase_abs t).
    - rewrite cos_neg, sin_neg. split; lra.
    - split; assumption. }
  destruct Habs as [Hc' Hs'].
  destruct (sin_eq_O_2PI_0 (Rabs t)) as [E | [E | E]]; try lra.
  rewrite E, cos_PI in Hc'. lra.
Qed.

(* ===================================================================== *)
(** * Finite sums                                                        *)
(* ===================================================================== *)

Lemma csum_ext h h' n :
  (forall j, (j < n)%nat -> h j = h' j) -> csum h n = csum h' n.
Proof.
  induction n as [|n IH]; intros H; simpl; [reflexivity|].
  rewrite IH by (intros j Hj; apply H; lia).
  rewrite H by lia. reflexivity.
Qed.

Lemma csum_add h h' n :
  csum (fun j => cadd (h j) (h' j)) n = cadd (csum h n) (csum h' n).
Proof.
  induction n as [|n IH]; simpl.
  - symmetry. apply cadd_0_l.
  - rewrite IH. complex_ring.
Qed.

Lemma csum_cmul_l c h n :
  csum (fun j => cmul c (h j)) n = cmul c (csum h n).
Proof.
  induction n as [|n IH]; simpl.
  - symmetry. apply cmul_0_r.
  - rewrite IH. complex_ring.
Qed.

Lemma csum_cmul_r c h n :
  csum (fun j => cmul (h j) c) n = cmul (csum h n) c.
Proof.
  induction n as [|n IH]; simpl.
  - symmetry. apply cmul_0_l.
  - rewrite IH. complex_ring.
Qed.

Lemma csum_cscale r h n :
  csum (fun j => cscale r (h j)) n = cscale r (csum h n).
Proof.
  induction n as [|n IH]; simpl.
  - symmetry. apply cscale_0_r.
  - rewrite IH. complex_ring.
Qed.

Lemma csum_0 n : csum (fun _ => C0) n = C0.
Proof.
  induction n as [|n IH]; simpl; [reflexivity|].
  rewrite IH. apply cadd_0_l.
Qed.

Lemma csum_swap (h : nat -> nat -> complex2) n m :
  csum (fun j => csum (fun k => h j k) m) n
  = csum (fun k => csum (fun j => h j k) n) m.
Proof.
  induction n as [|n IH]; simpl.
  - symmetry. apply csum_0.
  - rewrite IH. symmetry. apply csum_add.
Qed.

(** Only the term at [i] is left of a sum whose other terms vanish. *)
Lemma csum_single h n i :
  (i < n)%nat -> (forall j, (j < n)%nat -> j <> i -> h j = C0) ->
  csum h n = h i.
Proof.
  induction n as [|n IH]; intros Hi H; [lia|]. simpl.
  destruct (Nat.eq_dec i n) as [-> | Hne].
  - rewrite (csum_ext h (fun _ => C0)) by (intros j Hj; apply H; lia).
    rewrite csum_0. apply cadd_0_l.
  - rewrite IH by (try lia; intros j Hj Hji; apply H; lia).
    rewrite (H n) by lia. apply cadd_0_r.
Qed.

(** A sum over [2 m] indices, split by parity. *)
Lemma csum_even_odd h m :
  csum h (2 * m) = cadd (csum (fun j => h (2 * j)%nat) m)
                        (csum (fun j => h (2 * j + 1)%nat) m).
Proof.
  induction m as [|m IH].
  - symmetry. apply cadd_0_l.
  - replace (2 * S m)%nat with (S (S (2 * m))) by lia.
    cbn [csum]. rewrite IH.
    replace (S (2 * m)) with (2 * m + 1)%nat by lia.
    complex_ring.
Qed.

(* ===================================================================== *)
(** * The direct transforms compute the unitary sums                     *)
(* ===================================================================== *)

Lemma for_each_app {A S} (l1 l2 : list A) (body : S -> A -> result S) s :
  for_each (l1 ++ l2) body s
  = (s' <- for_each l1 body s ;; for_each l2 body s').
Proof.
  revert s. induction l1 as [|a l1 IH]; intros s; simpl; [reflexivity|].
  destruct (body s a); simpl; [apply IH | reflexivity].
Qed.

(** A loop that adds [h j] to its accumulator at each index [j]. *)
Lemma for_each_csum (body : complex2 -> nat -> result complex2) h n acc :
  (forall a j, (j < n)%nat -> body a j = Ok (cadd a (h j))) ->
  for_each (range n) body acc = Ok (cadd acc (csum h n)).
Proof.
  unfold range. induction n as [|n IH]; intros Hb.
  - simpl. rewrite cadd_0_r. reflexivity.
  - rewrite seq_S, for_each_app, IH by (intros a j Hj; apply Hb; lia).
    simpl. rewrite Hb by lia. simpl. rewrite cadd_assoc. reflexivity.
Qed.

Lemma INR_neq_0 (N : nat) : N <> 0%nat -> INR N <> 0.
Proof. intros H E. apply H. apply INR_eq. exact E. Qed.

Lemma sqrt_INR_neq_0 (N : nat) : N <> 0%nat -> sqrt (INR N) <> 0.
Proof.
  intros H E. apply sqrt_eq_0 in E; [|apply pos_INR].
  exact (INR_neq_0 N H E).
Qed.

Lemma dft_exponent_ok c n k N :
  N <> 0%nat ->
  dft_exponent c n k N = Ok (Complex2 0 (c * INR n * INR k / INR N)).
Proof.
  intros HN. pose proof (INR_neq_0 N HN) as HR.
  unfold dft_exponent, i_unit. simpl.
  rewrite Reqb_false by assumption.
  f_equal. f_equal; field; assumption.
Qed.

Lemma exp2_imaginary t : exp2 (Cx (Complex2 0 t)) = cis t.
Proof.
  unfold exp2, cis, __rmul__. simpl. rewrite exp_0. f_equal; ring.
Qed.

Lemma py_mul_complex a z : py_mul a (Cx z) = Cx (cmul (to_complex2 a) z).
Proof.
  destruct a as [r | w]; simpl; [|reflexivity].
  f_equal. unfold cmul, __rmul__, __mul__. simpl. f_equal; ring.
Qed.

Lemma div_float_ok z r :
  r <> 0 -> __div__ z (Flt r) = Ok (cscale (/ r) z).
Proof.
  intros Hr. simpl. rewrite Reqb_false by assumption.
  unfold cscale, __rmul__. f_equal. f_equal; unfold Rdiv; ring.
Qed.

Lemma dft_loops_ok c x : dft_loops c x = Ok (dft c x).
Proof.
  unfold dft_loops, dft, range.
  apply mapM_ok. intros k Hk. apply in_seq in Hk.
  assert (HN : length x <> 0%nat) by lia.
  change (Complex2 0 0) with C0.
  rewrite (for_each_csum _
             (fun n => cmul (to_complex2 (nth n x (Flt 0)))
                            (cis (c * INR n * INR k / INR (length x))))).
  - cbn [bind]. rewrite cadd_0_l.
    apply div_float_ok. apply sqrt_INR_neq_0. exact HN.
  - intros a j Hj. rewrite (getitem_nth x j (Flt 0)) by exact Hj.
    cbn [bind]. rewrite dft_exponent_ok by exact HN. cbn [bind].
    rewrite exp2_imaginary, py_mul_complex. reflexivity.
Qed.

Lemma disc_fourier_ok x : disc_fourier x = Ok (dft (-2 * PI) x).
Proof. apply dft_loops_ok. Qed.

Lemma disc_inv_fourier_ok X : disc_inv_fourier X = Ok (dft (2 * PI) X).
Proof.
  unfold disc_inv_fourier, dft, range.
  apply mapM_ok. intros n Hn. apply in_seq in Hn.
  assert (HN : length X <> 0%nat) by lia.
  change (Complex2 0 0) with C0.
  rewrite (for_each_csum _
             (fun k => cmul (to_complex2 (nth k X (Flt 0)))
                            (cis (2 * PI * INR k * INR n / INR (length X))))).
  - cbn [bind]. rewrite cadd_0_l.
    apply div_float_ok. apply sqrt_INR_neq_0. exact HN.
  - intros a j Hj. rewrite (getitem_nth X j (Flt 0)) by exact Hj.
    cbn [bind]. rewrite dft_exponent_ok by exact HN. cbn [bind].
    rewrite exp2_imaginary, py_mul_complex.
    replace (2 * PI * INR n * INR j / INR (length X))
      with (2 * PI * INR j * INR n / INR (length X))
      by (field; apply INR_neq_0; exact HN).
    reflexivity.
Qed.

(* ===================================================================== *)
(** * Roots of unity                                                     *)
(* ===================================================================== *)

Lemma csum_const c n : csum (fun _ => c) n = cscale (INR n) c.
Proof.
  induction n as [|n IH].
  - simpl. complex_ring.
  - cbn [csum]. rewrite IH, S_INR. complex_ring.
Qed.

(** The telescoping identity behind the geometric sum. *)
Lemma geometric_sum t N :
  cmul (csub (cis t) C1) (csum (fun k => cis (INR k * t)) N)
  = csub (cis (INR N * t)) C1.
Proof.
  induction N as [|N IH].
  - simpl. rewrite Rmult_0_l, cis_0. complex_ring.
  - cbn [csum]. rewrite cmul_add_distr_l, IH.
    rewrite S_INR.
    replace ((INR N + 1) * t) with (INR N * t + t) by ring.
    rewrite cis_add. complex_ring.
Qed.

Lemma cis_full_turns (n m : nat) : cis (2 * PI * (INR n - INR m)) = C1.
Proof.
  replace (2 * PI * (INR n - INR m))
    with (2 * INR n * PI + - (2 * INR m * PI)) by ring.
  rewrite cis_add, cis_2PI_nat, cis_neg_2PI_nat. apply cmul_1_l.
Qed.

(** The [N]-th roots of unity sum to zero along every nonzero frequency
    difference, and to [N] along the zero one. *)
Lemma orthogonality (N n m : nat) :
  (n < N)%nat -> (m < N)%nat ->
  csum (fun k => cis (2 * PI * (INR n - INR m) * INR k / INR N)) N
  = if (n =? m)%nat then Complex2 (INR N) 0 else C0.
Proof.
  intros Hn Hm.
  assert (HN : INR N <> 0) by (apply INR_neq_0; lia).
  assert (HNpos : 0 < INR N) by (apply lt_0_INR; lia).
  destruct (Nat.eqb_spec n m) as [-> | Hne].
  - rewrite (csum_ext _ (fun _ => C1)).
    + rewrite csum_const. complex_ring.
    + intros k _. rewrite <- cis_0. f_equal. field. exact HN.
  - set (t := 2 * PI * (INR n - INR m) / INR N).
    rewrite (csum_ext _ (fun k => cis (INR k * t)))
      by (intros k _; f_equal; unfold t; field; exact HN).
    apply (cmul_eq_0 (csub (cis t) C1)).
    + rewrite geometric_sum.
      replace (INR N * t) with (2 * PI * (INR n - INR m))
        by (unfold t; field; exact HN).
      rewrite cis_full_turns. complex_ring.
    + intros E. apply (cis_neq_1 t).
      * pose proof PI_RGT_0 as Hpi.
        assert (Hq : exists q, 0 < q < 1 /\ (t = 2 * PI * q \/ t = - (2 * PI * q))).
        { destruct (Nat.lt_ge_cases m n) as [Hlt | Hge].
          - exists ((INR n - INR m) / INR N). split.
            + apply lt_INR in Hlt, Hn. pose proof (pos_INR m).
              split.
              * apply Rdiv_lt_0_compat; lra.
              * apply (Rmult_lt_reg_r (INR N)); [exact HNpos|].
                unfold Rdiv. rewrite Rmult_assoc, Rinv_l by exact HN. lra.
            + left. unfold t. field. exact HN.
          - assert (Hlt : (n < m)%nat) by lia.
            exists ((INR m - INR n) / INR N). split.
            + apply lt_INR in Hlt, Hm. pose proof (pos_INR n).
              split.
              * apply Rdiv_lt_0_compat; lra.
              * apply (Rmult_lt_reg_r (INR N)); [exact HNpos|].
                unfold Rdiv. rewrite Rmult_assoc, Rinv_l by exact HN. lra.
            + right. unfold t. field. exact HN. }
        destruct Hq as [q [[Hq0 Hq1] [Ht | Ht]]]; rewrite Ht.
        -- rewrite Rabs_right by nra. nra.
        -- rewrite Rabs_Ropp, Rabs_right by nra. nra.
      * destruct (cis t) as [u v]. unfold csub, C1, C0 in *. simpl in E.
        injection E as E1 E2. unfold C1. f_equal; lra.
Qed.

(* ===================================================================== *)
(** * Forward then inverse                                               *)
(* ===================================================================== *)

Lemma dft_length c x : length (dft c x) = length x.
Proof. unfold dft. rewrite length_map, length_seq. reflexivity. Qed.

Lemma dft_nth c x k d :
  (k < length x)%nat ->
  nth k (dft c x) d = cscale (/ sqrt (INR (length x))) (dft_sum c x k).
Proof.
  intros Hk. unfold dft.
  rewrite (nth_indep _ d
             (cscale (/ sqrt (INR (length x))) (dft_sum c x 0)))
    by (rewrite length_map, length_seq; exact Hk).
  rewrite (map_nth (fun k => cscale (/ sqrt (INR (length x))) (dft_sum c x k))
                   (seq 0 (length x)) 0%nat k).
  rewrite seq_nth by exact Hk. reflexivity.
Qed.

Lemma map_nth_seq {A B} (h : A -> B) (l : list A) (d : A) :
  map h l = map (fun n => h (nth n l d)) (seq 0 (length l)).
Proof.
  induction l as [|a l IH]; simpl; [reflexivity|].
  rewrite <- seq_shift, map_map. f_equal. exact IH.
Qed.

Lemma inv_sqrt_sqr (N : nat) :
  N <> 0%nat -> / sqrt (INR N) * / sqrt (INR N) = / INR N.
Proof.
  intros HN. rewrite <- Rinv_mult.
  rewrite sqrt_sqrt by apply pos_INR. reflexivity.
Qed.

(** The inverse sum of the forward transform gives back the sample. *)
Theorem dft_inverse x :
  dft (2 * PI) (map Cx (dft (-2 * PI) x)) = map to_complex2 x.
Proof.
  rewrite (map_nth_seq to_complex2 x (Flt 0)).
  unfold dft at 1. rewrite !length_map, dft_length.
  apply map_ext_in. intros n Hn. apply in_seq in Hn.
  set (N := length x) in *.
  assert (HN : N <> 0%nat) by lia.
  assert (HR : INR N <> 0) by (apply INR_neq_0; exact HN).
  unfold dft_sum at 1. rewrite !length_map, dft_length. fold N.
  rewrite (csum_ext _
    (fun k => cscale (/ sqrt (INR N))
       (csum (fun m => cmul (to_complex2 (nth m x (Flt 0)))
                (cis (2 * PI * (INR n - INR m) * INR k / INR N))) N))).
  2:{ intros k Hk.
      rewrite (nth_indep _ (Flt 0) (Cx C0))
        by (rewrite length_map, dft_length; exact Hk).
      rewrite (map_nth Cx (dft (-2 * PI) x) C0 k).
      rewrite dft_nth by exact Hk. fold N. simpl to_complex2.
      rewrite <- cscale_cmul. f_equal.
      unfold dft_sum. fold N. rewrite <- csum_cmul_r.
      apply csum_ext. intros m Hm.
      rewrite <- cmul_assoc, <- cis_add. do 2 f_equal.
      field. exact HR. }
  rewrite csum_cscale, cscale_cscale, inv_sqrt_sqr by exact HN.
  rewrite csum_swap.
  rewrite (csum_ext _
    (fun m => cmul (to_complex2 (nth m x (Flt 0)))
                   (if (n =? m)%nat then Complex2 (INR N) 0 else C0))).
  2:{ intros m Hm. rewrite csum_cmul_l.
      rewrite orthogonality by lia. reflexivity. }
  rewrite (csum_single _ N n).
  2: lia.
  2:{ intros j Hj Hne. cbv beta.
      destruct (Nat.eqb_spec n j); [congruence | apply cmul_0_r]. }
  rewrite Nat.eqb_refl.
  destruct (to_complex2 (nth n x (Flt 0))) as [u v].
  unfold cscale, cmul, __rmul__, __mul__. simpl. f_equal; field; exact HR.
Qed.

(** C3.  For every sequence of floats or [complex2] samples, of any
    length, the direct forward transform followed by the direct inverse
    transform returns the samples themselves, component by component:
    both directions scale by [1 / sqrt N]. *)
Theorem disc_fourier_round_trip (x : list num) :
  (X <- disc_fourier x ;; disc_inv_fourier (map Cx X))
  = Ok (map to_complex2 x).
Proof.
  rewrite disc_fourier_ok. cbn [bind].
  rewrite disc_inv_fourier_ok, dft_inverse. reflexivity.
Qed.

(* ===================================================================== *)
(** * The slices                                                         *)
(* ===================================================================== *)

Lemma list_pair_ind {A} (P : list A -> Prop) :
  P [] -> (forall a, P [a]) -> (forall a b r, P r -> P (a :: b :: r)) ->
  forall l, P l.
Proof.
  intros H0 H1 H2.
  assert (H : forall l, P l /\ forall a, P (a :: l)).
  { induction l as [|b r [IH IH']]; split; auto. }
  intros l. apply H.
Qed.

Lemma slice_even_cons2 {A} (a b : A) r :
  slice_even (a :: b :: r) = a :: slice_even r.
Proof. reflexivity. Qed.

Lemma slice_odd_cons2 {A} (a b : A) r :
  slice_odd (a :: b :: r) = b :: slice_odd r.
Proof. unfold slice_odd. destruct r; reflexivity. Qed.

Lemma slice_lengths {A} (x : list A) (m : nat) :
  length x = (2 * m)%nat ->
  length (slice_even x) = m /\ length (slice_odd x) = m.
Proof.
  revert m. induction x as [| a | a b r IH] using list_pair_ind; intros m Hm.
  - simpl in *. split; lia.
  - simpl in Hm. lia.
  - rewrite slice_even_cons2, slice_odd_cons2. simpl in *.
    destruct m as [|m]; [lia|].
    destruct (IH m) as [He Ho]; [lia|]. split; lia.
Qed.

Lemma slice_even_nth {A} (x : list A) (j : nat) (d : A) :
  nth j (slice_even x) d = nth (2 * j) x d.
Proof.
  revert j. induction x as [| a | a b r IH] using list_pair_ind; intros j.
  - destruct j; reflexivity.
  - destruct j as [|j]; [reflexivity|].
    replace (2 * S j)%nat with (S (S (2 * j))) by lia.
    cbn [slice_even nth]. destruct j; reflexivity.
  - rewrite slice_even_cons2. destruct j as [|j]; [reflexivity|].
    replace (2 * S j)%nat with (S (S (2 * j))) by lia.
    simpl nth at 1 2. apply IH.
Qed.

Lemma slice_odd_nth {A} (x : list A) (j : nat) (d : A) :
  nth j (slice_odd x) d = nth (2 * j + 1) x d.
Proof.
  revert j. induction x as [| a | a b r IH] using list_pair_ind; intros j.
  - destruct j; reflexivity.
  - destruct j as [|j]; [reflexivity|].
    replace (2 * S j + 1)%nat with (S (S (2 * j + 1))) by lia.
    unfold slice_odd. cbn [tl slice_even nth]. reflexivity.
  - rewrite slice_odd_cons2. destruct j as [|j]; [reflexivity|].
    replace (2 * S j + 1)%nat with (S (S (2 * j + 1))) by lia.
    simpl nth at 1 2. apply IH.
Qed.

(* ===================================================================== *)
(** * Unfolding [dfft]                                                   *)
(* ===================================================================== *)

Lemma dfft_short x s inverse :
  (length x <= 1)%nat ->
  dfft x s inverse
  = (x0 <- getitem x 0 ;;
     match x0 with
     | Cx z => Ok [z]
     | Flt r => Ok [Complex2 r 0]
     end).
Proof.
  intros Hx. rewrite dfft_equation_1.
  destruct (le_lt_dec (length x) 1); [reflexivity | lia].
Qed.

Lemma dfft_long x s inverse :
  (1 < length x)%nat ->
  dfft x s inverse
  = if (0 <? length x mod 2)%nat then Raise InvalidLength
    else
      even <- dfft (slice_even x) (2 * s) false ;;
      odd <- dfft (slice_odd x) (2 * s) false ;;
      dfft_combine (if inverse then (-1)%Z else 1%Z) s (length x) even odd.
Proof.
  intros Hx. rewrite dfft_equation_1.
  destruct (le_lt_dec (length x) 1); [lia | reflexivity].
Qed.

(* ===================================================================== *)
(** * The combination step                                               *)
(* ===================================================================== *)

Lemma dfft_exponent_ok c k N :
  N <> 0%nat ->
  __div__ (__mul__ (__mul__ (__rmul__ i_unit c) (Flt PI)) (Flt (INR k)))
          (Flt (INR N))
  = Ok (Complex2 0 (c * PI * INR k / INR N)).
Proof.
  intros HN. pose proof (INR_neq_0 N HN) as HR.
  unfold i_unit. simpl. rewrite Reqb_false by assumption.
  f_equal. f_equal; field; assumption.
Qed.

Lemma dfft_T_ok inv N odd k :
  N <> 0%nat -> (k < length odd)%nat ->
  dfft_T inv N odd k = Ok (cmul (twiddle inv N k) (nth k odd C0)).
Proof.
  intros HN Hk. unfold dfft_T.
  rewrite dfft_exponent_ok by exact HN. cbn [bind].
  rewrite (getitem_nth odd k C0) by exact Hk. cbn [bind].
  rewrite exp2_imaginary. reflexivity.
Qed.

Lemma mapM_length {A B} (f : A -> result B) l r :
  mapM f l = Ok r -> length r = length l.
Proof.
  revert r. induction l as [|a l IH]; intros r; simpl.
  - intros H. injection H as <-. reflexivity.
  - destruct (f a); [|discriminate]. simpl.
    destruct (mapM f l) as [bs|]; [|discriminate]. simpl.
    intros H. injection H as <-. simpl. f_equal. apply IH. reflexivity.
Qed.

Lemma nth_map_seq {B} (h : nat -> B) (n k : nat) (d : B) :
  (k < n)%nat -> nth k (map h (seq 0 n)) d = h k.
Proof.
  intros Hk. rewrite (nth_indep _ d (h 0%nat))
    by (rewrite length_map, length_seq; exact Hk).
  rewrite (map_nth h (seq 0 n) 0%nat k), seq_nth by exact Hk. reflexivity.
Qed.

Lemma dfft_combine_ok inv s N even odd :
  N <> 0%nat -> length even = (N / 2)%nat -> length odd = (N / 2)%nat ->
  dfft_combine inv s N even odd
  = Ok (if (s =? 1)%Z
        then map (cscale (/ sqrt (INR N))) (butterfly inv N even odd)
        else butterfly inv N even odd).
Proof.
  intros HN He Ho. unfold dfft_combine, range.
  rewrite (mapM_ok (dfft_T inv N odd)
             (fun k => cmul (twiddle inv N k) (nth k odd C0)))
    by (intros k Hk; apply in_seq in Hk; apply dfft_T_ok; [exact HN | lia]).
  cbn [bind].
  set (T := map (fun k => cmul (twiddle inv N k) (nth k odd C0))
                (seq 0 (N / 2))).
  assert (HT : forall k, (k < N / 2)%nat ->
             getitem T k = Ok (cmul (twiddle inv N k) (nth k odd C0))).
  { intros k Hk. rewrite (getitem_nth T k C0)
      by (unfold T; rewrite length_map, length_seq; exact Hk).
    unfold T. rewrite nth_map_seq by exact Hk. reflexivity. }
  rewrite (mapM_ok _
             (fun k => cadd (nth k even C0)
                            (cmul (twiddle inv N k) (nth k odd C0)))).
  2:{ intros k Hk. apply in_seq in Hk.
      rewrite (getitem_nth even k C0), HT by lia. reflexivity. }
  cbn [bind].
  rewrite (mapM_ok _
             (fun k => csub (nth k even C0)
                            (cmul (twiddle inv N k) (nth k odd C0)))).
  2:{ intros k Hk. apply in_seq in Hk.
      rewrite (getitem_nth even k C0), HT by lia. reflexivity. }
  cbn [bind]. fold (butterfly inv N even odd).
  destruct (s =? 1)%Z; [|reflexivity].
  apply mapM_ok. intros z _.
  apply div_float_ok. apply sqrt_INR_neq_0. exact HN.
Qed.

Lemma butterfly_length inv N even odd :
  length (butterfly inv N even odd) = (2 * (N / 2))%nat.
Proof.
  unfold butterfly. rewrite length_app, !length_map, !length_seq. lia.
Qed.

(* ===================================================================== *)
(** * Which lengths [dfft] accepts                                       *)
(* ===================================================================== *)

Lemma pow2_pos p : (2 ^ p <> 0)%nat.
Proof. apply Nat.pow_nonzero. discriminate. Qed.

Lemma pow2_half p : (2 ^ S p / 2 = 2 ^ p)%nat.
Proof.
  rewrite Nat.pow_succ_r', Nat.mul_comm. apply Nat.div_mul. discriminate.
Qed.

Lemma pow2_even p : (2 ^ S p mod 2 = 0)%nat.
Proof.
  rewrite Nat.pow_succ_r', Nat.mul_comm. apply Nat.Div0.mod_mul.
Qed.

(** On a power-of-two length the transform returns, in either direction,
    a list of the same length. *)
Lemma dfft_total p : forall x s inverse,
  length x = (2 ^ p)%nat ->
  exists r, dfft x s inverse = Ok r /\ length r = (2 ^ p)%nat.
Proof.
  induction p as [|p IH]; intros x s inverse Hx.
  - destruct x as [|a [|b r]]; try discriminate.
    rewrite dfft_short by (simpl; lia). simpl.
    destruct a; eexists; split; reflexivity.
  - pose proof (pow2_pos p) as Hp.
    assert (Hlen : length x = (2 * 2 ^ p)%nat)
      by (rewrite Hx, Nat.pow_succ_r'; reflexivity).
    destruct (slice_lengths x (2 ^ p) Hlen) as [He Ho].
    rewrite dfft_long by lia.
    rewrite Hx, pow2_even. cbn [Nat.ltb Nat.leb].
    destruct (IH (slice_even x) (2 * s)%Z false He) as [even [-> Hle]].
    destruct (IH (slice_odd x) (2 * s)%Z false Ho) as [odd [-> Hlo]].
    cbn [bind].
    rewrite dfft_combine_ok
      by (rewrite ?pow2_half; try assumption; apply pow2_pos).
    eexists. split; [reflexivity|].
    destruct (s =? 1)%Z; rewrite ?length_map, butterfly_length, pow2_half;
      rewrite Nat.pow_succ_r'; reflexivity.
Qed.

(** Halving a length that is not a power of two gives one that is not. *)
Lemma not_power_of_two_half m :
  ~ power_of_two (2 * m) -> ~ power_of_two m.
Proof.
  intros H [p Hp]. apply H. exists (S p).
  rewrite Nat.pow_succ_r', Hp. reflexivity.
Qed.

Lemma dfft_invalid_length : forall n x s inverse,
  length x = n -> n <> 0%nat -> ~ power_of_two n ->
  dfft x s inverse = Raise InvalidLength.
Proof.
  induction n as [n IH] using lt_wf_ind. intros x s inverse Hx Hn Hnp.
  assert (H1 : (1 < length x)%nat).
  { destruct (Nat.eq_dec n 1) as [-> | Hne]; [|lia].
    exfalso. apply Hnp. exists 0%nat. reflexivity. }
  rewrite dfft_long by exact H1. rewrite Hx.
  destruct (Nat.ltb_spec 0 (n mod 2)) as [Hodd | Heven]; [reflexivity|].
  assert (Hm : n = (2 * (n / 2))%nat).
  { pose proof (Nat.div_mod_eq n 2). lia. }
  assert (Hxm : length x = (2 * (n / 2))%nat) by lia.
  destruct (slice_lengths x (n / 2) Hxm) as [He _].
  rewrite (IH (n / 2)%nat ltac:(lia) (slice_even x) (2 * s)%Z false He).
  - reflexivity.
  - lia.
  - apply not_power_of_two_half. rewrite <- Hm. exact Hnp.
Qed.

(* ===================================================================== *)
(** * The radix-2 identities                                             *)
(* ===================================================================== *)

Lemma INR_double (j : nat) : INR (2 * j) = 2 * INR j.
Proof. rewrite mult_INR. simpl. ring. Qed.

Lemma INR_double_succ (j : nat) : INR (2 * j + 1) = 2 * INR j + 1.
Proof. rewrite plus_INR, INR_double. simpl. ring. Qed.

(** The sum over a sequence of even length, split into the sums over its
    two slices. *)
Lemma dft_sum_split c x M k :
  length x = (2 * M)%nat ->
  dft_sum c x k
  = cadd (csum (fun j => cmul (to_complex2 (nth j (slice_even x) (Flt 0)))
                  (cis (c * INR (2 * j) * INR k / INR (2 * M)))) M)
         (csum (fun j => cmul (to_complex2 (nth j (slice_odd x) (Flt 0)))
                  (cis (c * INR (2 * j + 1) * INR k / INR (2 * M)))) M).
Proof.
  intros Hx. unfold dft_sum. rewrite Hx, csum_even_odd.
  f_equal; apply csum_ext; intros j _.
  - rewrite slice_even_nth. reflexivity.
  - rewrite slice_odd_nth. reflexivity.
Qed.

Lemma csub_cadd_opp z w : csub z w = cadd z (cmul (Complex2 (-1) 0) w).
Proof. complex_ring. Qed.

(** The first half of the coefficients: [E k + w^k O k]. *)
Lemma butterfly_low c x M k :
  length x = (2 * M)%nat -> M <> 0%nat ->
  dft_sum c x k
  = cadd (dft_sum c (slice_even x) k)
         (cmul (cis (c * INR k / INR (2 * M))) (dft_sum c (slice_odd x) k)).
Proof.
  intros Hx HM. pose proof (INR_neq_0 M HM) as HR.
  destruct (slice_lengths x M Hx) as [He Ho].
  rewrite (dft_sum_split c x M k Hx). unfold dft_sum. rewrite He, Ho.
  f_equal.
  - apply csum_ext. intros j _. do 2 f_equal.
    rewrite !INR_double. field. exact HR.
  - rewrite <- csum_cmul_l. apply csum_ext. intros j _.
    rewrite INR_double_succ, INR_double.
    replace (c * (2 * INR j + 1) * INR k / (2 * INR M))
      with (c * INR j * INR k / INR M + c * INR k / (2 * INR M))
      by (field; exact HR).
    rewrite cis_add. complex_ring.
Qed.

(** The second half, for the forward exponent: [E k - w^k O k]. *)
Lemma butterfly_high x M k :
  length x = (2 * M)%nat -> M <> 0%nat ->
  dft_sum (-2 * PI) x (M + k)
  = csub (dft_sum (-2 * PI) (slice_even x) k)
         (cmul (cis (-2 * PI * INR k / INR (2 * M)))
               (dft_sum (-2 * PI) (slice_odd x) k)).
Proof.
  intros Hx HM. pose proof (INR_neq_0 M HM) as HR.
  destruct (slice_lengths x M Hx) as [He Ho].
  rewrite (dft_sum_split _ x M (M + k) Hx), csub_cadd_opp.
  unfold dft_sum. rewrite He, Ho.
  f_equal.
  - apply csum_ext. intros j _.
    rewrite !INR_double, plus_INR.
    replace (-2 * PI * (2 * INR j) * (INR M + INR k) / (2 * INR M))
      with (-2 * PI * INR j * INR k / INR M + - (2 * INR j * PI))
      by (field; exact HR).
    rewrite cis_add, cis_neg_2PI_nat, cmul_1_r. reflexivity.
  - rewrite <- !csum_cmul_l. apply csum_ext. intros j _.
    rewrite INR_double_succ, INR_double, plus_INR.
    replace (-2 * PI * (2 * INR j + 1) * (INR M + INR k) / (2 * INR M))
      with ((-2 * PI * INR j * INR k / INR M
              + -2 * PI * INR k / (2 * INR M))
            + (- (2 * INR j * PI) + - PI))
      by (field; exact HR).
    rewrite (cis_add _ (- (2 * INR j * PI) + - PI)).
    rewrite (cis_add (- (2 * INR j * PI))), cis_neg_2PI_nat, cis_neg_PI.
    rewrite cis_add. complex_ring.
Qed.

Lemma map_seq_offset {B} (h : nat -> B) (M n : nat) :
  map h (seq M n) = map (fun k => h (M + k)%nat) (seq 0 n).
Proof.
  revert M. induction n as [|n IH]; intros M; [reflexivity|].
  simpl. rewrite Nat.add_0_r. f_equal.
  rewrite IH, <- seq_shift, map_map.
  apply map_ext. intros k. f_equal. lia.
Qed.

Lemma twiddle_forward N k : twiddle 1 N k = cis (-2 * PI * INR k / INR N).
Proof.
  unfold twiddle. change (IZR (-2 * 1)) with (-2). apply cscale_1.
Qed.

(** The combination of the two half sums is the full sum. *)
Lemma butterfly_forward x M :
  length x = (2 * M)%nat -> M <> 0%nat ->
  butterfly 1 (2 * M)
    (map (dft_sum (-2 * PI) (slice_even x)) (seq 0 M))
    (map (dft_sum (-2 * PI) (slice_odd x)) (seq 0 M))
  = map (dft_sum (-2 * PI) x) (seq 0 (2 * M)).
Proof.
  intros Hx HM. unfold butterfly.
  replace (2 * M / 2)%nat with M
    by (rewrite Nat.mul_comm, Nat.div_mul; [reflexivity | discriminate]).
  assert (Hseq : seq 0 (2 * M) = seq 0 M ++ seq M M)
    by (replace (2 * M)%nat with (M + M)%nat by lia; apply seq_app).
  rewrite Hseq, map_app, (map_seq_offset _ M). f_equal.
  - apply map_ext_in. intros k Hk. apply in_seq in Hk.
    rewrite !nth_map_seq, twiddle_forward by lia.
    symmetry. apply butterfly_low; assumption.
  - apply map_ext_in. intros k Hk. apply in_seq in Hk.
    rewrite !nth_map_seq, twiddle_forward by lia.
    symmetry. apply butterfly_high; assumption.
Qed.

(** The forward recursion computes the sums of the direct transform, and
    normalises them at the outermost call only. *)
Lemma dfft_forward p : forall x s,
  length x = (2 ^ p)%nat ->
  dfft x s false
  = Ok (if (s =? 1)%Z then dft (-2 * PI) x
        else map (dft_sum (-2 * PI) x) (seq 0 (length x))).
Proof.
  induction p as [|p IH]; intros x s Hx.
  - destruct x as [|a [|b r]]; try discriminate.
    rewrite dfft_short by (simpl; lia).
    assert (Hsum : dft_sum (-2 * PI) [a] 0 = to_complex2 a).
    { unfold dft_sum. simpl.
      replace (-2 * PI * 0 * 0 / 1) with 0 by field.
      rewrite cis_0, cadd_0_l. apply cmul_1_r. }
    assert (Hres : (x0 <- getitem [a] 0 ;;
                    match x0 with
                    | Flt r => Ok [Complex2 r 0]
                    | Cx z => Ok [z]
                    end) = Ok [to_complex2 a])
      by (destruct a; reflexivity).
    rewrite Hres. f_equal.
    destruct (s =? 1)%Z; unfold dft; simpl; rewrite Hsum; [|reflexivity].
    rewrite sqrt_1, Rinv_1, cscale_1. reflexivity.
  - pose proof (pow2_pos p) as Hp.
    assert (Hlen : length x = (2 * 2 ^ p)%nat)
      by (rewrite Hx, Nat.pow_succ_r'; reflexivity).
    destruct (slice_lengths x (2 ^ p) Hlen) as [He Ho].
    rewrite dfft_long by lia.
    rewrite Hx, pow2_even. cbn [Nat.ltb Nat.leb].
    rewrite (IH (slice_even x) (2 * s)%Z He).
    rewrite (IH (slice_odd x) (2 * s)%Z Ho).
    replace (2 * s =? 1)%Z with false by (symmetry; apply Z.eqb_neq; lia).
    cbn [bind]. rewrite He, Ho.
    rewrite dfft_combine_ok
      by (rewrite ?pow2_half, ?length_map, ?length_seq;
          try reflexivity; apply pow2_pos).
    rewrite Nat.pow_succ_r', butterfly_forward by assumption.
    f_equal. destruct (s =? 1)%Z; [|reflexivity].
    unfold dft. rewrite map_map, Hlen. reflexivity.
Qed.

(** C4.  On a sequence whose length is a power of two the forward
    recursive transform and the direct forward transform both return,
    and return the same coefficients. *)
Theorem dfft_agrees_with_disc_fourier (x : list num) :
  power_of_two (length x) ->
  exists X, dfft x 1 false = Ok X /\ disc_fourier x = Ok X.
Proof.
  intros [p Hp]. exists (dft (-2 * PI) x). split.
  - rewrite (dfft_forward p x 1 Hp). reflexivity.
  - apply disc_fourier_ok.
Qed.

Lemma disc_fourier_total (x : list num) :
  exists X, disc_fourier x = Ok X /\ length X = length x.
Proof.
  exists (dft (-2 * PI) x). split; [apply disc_fourier_ok | apply dft_length].
Qed.

(** C5.  On a non-empty sequence whose length is not a power of two
    [dfft] raises the [ValueError] of its length check; on a length that
    is a power of two it raises nothing; and [disc_fourier] returns on
    every length. *)
Theorem dfft_length_validation :
  (forall x s inverse,
     x <> [] -> ~ power_of_two (length x) ->
     dfft x s inverse = Raise InvalidLength) /\
  (forall x s inverse,
     power_of_two (length x) -> exists r, dfft x s inverse = Ok r) /\
  (forall x, exists X, disc_fourier x = Ok X /\ length X = length x).
Proof.
  split; [|split].
  - intros x s inverse Hx Hnp.
    apply (dfft_invalid_length (length x)); [reflexivity | | exact Hnp].
    destruct x; [congruence | discriminate].
  - intros x s inverse [p Hp].
    destruct (dfft_total p x s inverse Hp) as [r [Hr _]].
    exists r. exact Hr.
  - apply disc_fourier_total.
Qed.

Lemma five_not_power_of_two : ~ power_of_two 5.
Proof.
  intros [p Hp]. destruct p as [|[|[|p]]]; simpl in Hp; lia.
Qed.

(** Lengths five and four. *)
Lemma dfft_length_validation_witness :
  dfft [Flt 1; Flt 2; Flt 3; Flt 4; Flt 5] 1 false = Raise InvalidLength /\
  (exists r, dfft [Flt 1; Flt 2; Flt 3; Flt 4] 1 false = Ok r) /\
  (exists X, disc_fourier [Flt 1; Flt 2; Flt 3; Flt 4; Flt 5] = Ok X /\
             length X = 5%nat).
Proof.
  split; [|split].
  - apply (proj1 dfft_length_validation).
    + discriminate.
    + exact five_not_power_of_two.
  - apply (proj1 (proj2 dfft_length_validation)).
    exists 2%nat. reflexivity.
  - apply (proj2 (proj2 dfft_length_validation)).
Defined.

(** Four samples, one of them a [complex2]. *)
Lemma dfft_agrees_with_disc_fourier_witness :
  exists X, dfft [Flt 1; Cx (Complex2 0 1); Flt 3; Flt 4] 1 false = Ok X /\
            disc_fourier [Flt 1; Cx (Complex2 0 1); Flt 3; Flt 4] = Ok X.
Proof.
  apply dfft_agrees_with_disc_fourier. exists 2%nat. reflexivity.
Defined.

(** With the inverse flag, two samples come back in the order opposite
    to that of the inverse transform: the twiddled odd coefficient is
    multiplied by [inv = -1] once more. *)
Lemma dfft_inverse_two (a b : R) :
  dfft [Flt a; Flt b] 1 true
  = Ok [Complex2 ((a - b) / sqrt 2) 0; Complex2 ((a + b) / sqrt 2) 0].
Proof.
  rewrite dfft_long by (simpl; lia).
  cbn [length Nat.modulo Nat.divmod fst snd Nat.ltb Nat.leb Nat.sub
       slice_even slice_odd tl].
  rewrite !dfft_short by (simpl; lia). cbn [getitem nth_error bind].
  rewrite dfft_combine_ok by (simpl; try reflexivity; discriminate).
  cbn [Z.eqb Pos.eqb]. f_equal.
  unfold butterfly, twiddle.
  change (2 / 2)%nat with 1%nat. cbn [seq map app nth].
  change (IZR (-2 * -1)) with 2. change (INR 0) with 0.
  change (INR 2) with (1 + 1).
  replace (2 * PI * 0 / (1 + 1)) with 0 by field.
  rewrite cis_0. replace (1 + 1) with 2 by ring.
  unfold cscale, cadd, csub, cmul, C1, __rmul__, __add__, __sub__, __mul__.
  assert (Hs : sqrt 2 <> 0) by apply sqrt2_neq_0.
  f_equal; [|f_equal]; apply complex2_eq; simpl; field; exact Hs.
Qed.

Lemma disc_inv_fourier_two (a b : R) :
  disc_inv_fourier [Flt a; Flt b]
  = Ok [Complex2 ((a + b) / sqrt 2) 0; Complex2 ((a - b) / sqrt 2) 0].
Proof.
  rewrite disc_inv_fourier_ok. f_equal.
  unfold dft, dft_sum. cbn [length seq map csum nth to_complex2].
  change (INR 0) with 0. change (INR 1) with 1. change (INR 2) with (1 + 1).
  replace (2 * PI * 0 * 0 / (1 + 1)) with 0 by field.
  replace (2 * PI * 1 * 0 / (1 + 1)) with 0 by field.
  replace (2 * PI * 0 * 1 / (1 + 1)) with 0 by field.
  replace (2 * PI * 1 * 1 / (1 + 1)) with PI by field.
  rewrite cis_0, cis_PI. replace (1 + 1) with 2 by ring.
  unfold cscale, cadd, csub, cmul, C0, C1, __rmul__, __add__, __sub__, __mul__.
  assert (Hs : sqrt 2 <> 0) by apply sqrt2_neq_0.
  f_equal; [|f_equal]; apply complex2_eq; simpl; field; exact Hs.
Qed.

(** C2.  On the samples [0, 1] the recursive transform with the inverse
    flag set returns [-1/sqrt 2, 1/sqrt 2], and the direct inverse
    transform [1/sqrt 2, -1/sqrt 2]: the flagged recursion is not the
    unitary inverse transform. *)
Theorem dfft_inverse_flag_differs :
  dfft [Flt 0; Flt 1] 1 true
    = Ok [Complex2 (- / sqrt 2) 0; Complex2 (/ sqrt 2) 0] /\
  disc_inv_fourier [Flt 0; Flt 1]
    = Ok [Complex2 (/ sqrt 2) 0; Complex2 (- / sqrt 2) 0] /\
  dfft [Flt 0; Flt 1] 1 true <> disc_inv_fourier [Flt 0; Flt 1].
Proof.
  assert (Hs : sqrt 2 <> 0) by apply sqrt2_neq_0.
  assert (Hpos : 0 < / sqrt 2).
  { apply Rinv_0_lt_compat. apply sqrt_lt_R0. lra. }
  rewrite dfft_inverse_two, disc_inv_fourier_two.
  replace ((0 - 1) / sqrt 2) with (- / sqrt 2) by (field; exact Hs).
  replace ((0 + 1) / sqrt 2) with (/ sqrt 2) by (field; exact Hs).
  split; [reflexivity | split; [reflexivity|]].
  intros E. injection E as E. lra.
Qed.

(* ===================================================================== *)
(** * More on the root finders                                           *)
(* ===================================================================== *)

Lemma zrange_nonpos (n : Z) : (n <= 0)%Z -> zrange n = [].
Proof.
  intros Hn. unfold zrange, range.
  replace (Z.to_nat n) with 0%nat by lia. reflexivity.
Qed.

Lemma zrange_cases (n : Z) :
  zrange n = [] \/ exists l, zrange n = 0%Z :: l.
Proof.
  destruct (Z_le_gt_dec n 0) as [Hle | Hgt].
  - left. apply zrange_nonpos. exact Hle.
  - right. eexists. apply zrange_pos. lia.
Qed.

(** Once the current guess is a root, the loop of [num_newton] returns
    it however many turns are left. *)
Lemma newton_loop_at_root (function derivative : R -> R) (l : list Z) c :
  function c = 0 ->
  for_loop l (newton_body function derivative) (fun c => Ok c) c = Ok c.
Proof.
  intros Hc. destruct l as [|i l]; cbn [for_loop]; [reflexivity|].
  unfold newton_body. rewrite Reqb_true by exact Hc. reflexivity.
Qed.

(** X1.  With float arguments (a float guess, float-valued function and
    derivative): on an affine function m*x + q with m <> 0, whose
    derivative is the constant m, num_newton returns the exact root
    -q/m from every initial guess as soon as it is given at least one
    iteration. *)
Theorem num_newton_affine (function derivative : R -> R)
  (m q guess : R) (iterations : Z) :
  (forall x, function x = m * x + q) ->
  (forall x, derivative x = m) ->
  m <> 0 -> (1 <= iterations)%Z ->
  num_newton function derivative guess iterations = Ok (- q / m) /\
  function (- q / m) = 0.
Proof.
  intros Hf Hd Hm Hit.
  assert (Hroot : function (- q / m) = 0) by (rewrite Hf; field; exact Hm).
  split; [|exact Hroot].
  unfold num_newton. rewrite zrange_pos by exact Hit. cbn [for_loop].
  unfold newton_body at 1.
  destruct (Req_dec_T (function guess) 0) as [H0 | H0].
  - rewrite Reqb_true by exact H0. f_equal.
    rewrite Hf in H0. apply (Rmult_eq_reg_l m); [|exact Hm].
    field_simplify; [lra | exact Hm].
  - rewrite Reqb_false by exact H0.
    rewrite Hd, fdiv_ok by exact Hm.
    replace (guess - function guess / m) with (- q / m)
      by (rewrite Hf; field; exact Hm).
    apply newton_loop_at_root. exact Hroot.
Qed.

Lemma num_newton_affine_witness :
  num_newton (fun x => 2 * x + -6) (fun _ => 2) 10 5 = Ok (- -6 / 2) /\
  (fun x => 2 * x + -6) (- -6 / 2) = 0.
Proof.
  apply (num_newton_affine (fun x => 2 * x + -6) (fun _ => 2) 2 (-6) 10 5).
  - reflexivity.
  - reflexivity.
  - lra.
  - lia.
Defined.

(** X2.  num_newton returns the initial guess unchanged when the guess is
    already an exact root (for every iteration count) and when the
    iteration count is zero or negative; when the guess is not a root,
    the derivative vanishes there and at least one iteration is
    requested, it raises ZeroDivisionError. *)
Theorem num_newton_edges (function derivative : R -> R)
  (guess : R) (iterations : Z) :
  (function guess = 0 ->
     num_newton function derivative guess iterations = Ok guess) /\
  ((iterations <= 0)%Z ->
     num_newton function derivative guess iterations = Ok guess) /\
  (function guess <> 0 -> derivative guess = 0 -> (1 <= iterations)%Z ->
     num_newton function derivative guess iterations
     = Raise ZeroDivisionError).
Proof.
  split; [|split].
  - intros H0. apply newton_loop_at_root. exact H0.
  - intros Hn. unfold num_newton. rewrite zrange_nonpos by exact Hn.
    reflexivity.
  - intros Hf Hd Hit. unfold num_newton.
    rewrite zrange_pos by exact Hit. cbn [for_loop]. unfold newton_body.
    rewrite Reqb_false by exact Hf. rewrite Hd, fdiv_zero. reflexivity.
Qed.

Lemma num_newton_edges_witness :
  num_newton (fun x => x * x - 4) (fun x => 2 * x) 2 7 = Ok 2 /\
  num_newton (fun x => x * x - 4) (fun x => 2 * x) 3 0 = Ok 3 /\
  num_newton (fun x => x * x - 4) (fun x => 2 * x) 0 7
    = Raise ZeroDivisionError.
Proof.
  split; [|split].
  - apply (proj1 (num_newton_edges (fun x => x * x - 4) (fun x => 2 * x) 2 7)).
    lra.
  - apply (proj1 (proj2 (num_newton_edges
             (fun x => x * x - 4) (fun x => 2 * x) 3 0))).
    lia.
  - apply (proj2 (proj2 (num_newton_edges
             (fun x => x * x - 4) (fun x => 2 * x) 0 7))).
    + lra.
    + lra.
    + lia.
Defined.

Lemma secant_loop_at_root (function : R -> R) (tol : R) (l : list Z) g1 g2 :
  function g1 = 0 ->
  for_loop l (secant_body function tol) (fun st => Ok (fst st)) (g1, g2)
  = Ok g1.
Proof.
  intros H1. destruct l as [|i l]; cbn [for_loop]; [reflexivity|].
  unfold secant_body. rewrite Reqb_true by exact H1. reflexivity.
Qed.

Lemma affine_root_unique (m q x : R) : m <> 0 -> m * x + q = 0 -> x = - q / m.
Proof.
  intros Hm H. apply (Rmult_eq_reg_l m); [|exact Hm].
  field_simplify; [lra | exact Hm].
Qed.

(** X3.  With float arguments (float guesses, a float-valued function): on
    an affine function m*x + q with m <> 0, with two distinct guesses
    that are further apart than the tolerance and at least one
    iteration, num_secant returns the exact root -q/m. *)
Theorem num_secant_affine (function : R -> R)
  (m q guess1 guess2 tol : R) (iterations : Z) :
  (forall x, function x = m * x + q) ->
  m <> 0 -> (1 <= iterations)%Z ->
  ~ (- tol <= guess1 - guess2 <= tol) ->
  guess1 <> guess2 ->
  num_secant function guess1 guess2 iterations tol = Ok (- q / m).
Proof.
  intros Hf Hm Hit Hfar Hne.
  assert (Hroot : function (- q / m) = 0) by (rewrite Hf; field; exact Hm).
  unfold num_secant. rewrite zrange_pos by exact Hit. cbn [for_loop].
  unfold secant_body at 1.
  assert (Hout : (Rleb (- tol) (guess1 - guess2) &&
                  Rleb (guess1 - guess2) tol)%bool = false).
  { destruct (Rle_dec (- tol) (guess1 - guess2)) as [H1 | H1].
    - rewrite (Rleb_false (guess1 - guess2)) by lra.
      apply Bool.andb_false_r.
    - rewrite (Rleb_false (- tol)) by exact H1. reflexivity. }
  rewrite Hout.
  destruct (Req_dec_T (function guess1) 0) as [H1 | H1].
  { rewrite Reqb_true by exact H1. cbn [orb]. f_equal.
    apply affine_root_unique; [exact Hm | rewrite <- Hf; exact H1]. }
  rewrite Reqb_false by exact H1. cbn [orb].
  destruct (Req_dec_T (function guess2) 0) as [H2 | H2].
  { rewrite Reqb_true by exact H2. f_equal.
    apply affine_root_unique; [exact Hm | rewrite <- Hf; exact H2]. }
  rewrite Reqb_false by exact H2.
  assert (Hden : function guess1 - function guess2 <> 0).
  { rewrite !Hf. intros E. apply Hne.
    apply (Rmult_eq_reg_l m); [lra | exact Hm]. }
  rewrite fdiv_ok by exact Hden.
  replace (guess1 - function guess1 * (guess1 - guess2)
                    / (function guess1 - function guess2))
    with (- q / m).
  - apply secant_loop_at_root. exact Hroot.
  - rewrite !Hf in Hden |- *. field. split; assumption.
Qed.

Lemma num_secant_affine_witness :
  num_secant (fun x => 2 * x + -6) 10 0 5 secant_tol = Ok (- -6 / 2).
Proof.
  apply (num_secant_affine (fun x => 2 * x + -6) 2 (-6) 10 0 secant_tol 5).
  - reflexivity.
  - lra.
  - lia.
  - unfold secant_tol. lra.
  - lra.
Defined.

(** X4.  When the two guesses are further apart than the tolerance and the
    function takes the same nonzero value at both, num_secant (with at
    least one iteration) raises ZeroDivisionError from the quotient by
    f1 - f2. *)
Theorem num_secant_equal_values (function : R -> R)
  (guess1 guess2 tol : R) (iterations : Z) :
  (1 <= iterations)%Z ->
  function guess1 <> 0 ->
  function guess1 = function guess2 ->
  ~ (- tol <= guess1 - guess2 <= tol) ->
  num_secant function guess1 guess2 iterations tol = Raise ZeroDivisionError.
Proof.
  intros Hit H1 Heq Hfar.
  unfold num_secant. rewrite zrange_pos by exact Hit. cbn [for_loop].
  unfold secant_body.
  assert (Hout : (Rleb (- tol) (guess1 - guess2) &&
                  Rleb (guess1 - guess2) tol)%bool = false).
  { destruct (Rle_dec (- tol) (guess1 - guess2)) as [Ha | Ha].
    - rewrite (Rleb_false (guess1 - guess2)) by lra.
      apply Bool.andb_false_r.
    - rewrite (Rleb_false (- tol)) by exact Ha. reflexivity. }
  rewrite Hout, (Reqb_false (function guess1)) by exact H1. cbn [orb].
  rewrite (Reqb_false (function guess2)) by (rewrite <- Heq; exact H1).
  replace (function guess1 - function guess2) with 0 by lra.
  rewrite fdiv_zero. reflexivity.
Qed.

Lemma num_secant_equal_values_witness :
  num_secant (fun x => x * x - 4) 1 (-1) 5 secant_tol
  = Raise ZeroDivisionError.
Proof.
  apply num_secant_equal_values.
  - lia.
  - lra.
  - lra.
  - unfold secant_tol. lra.
Defined.

(* ---- num_linear ---- *)

(** With no iteration the loop never binds [c], and [return c] fails. *)
Theorem num_linear_zero_iterations (function : R -> R) (a b : R) :
  num_linear function a b 0 = Raise UnboundLocalError.
Proof.
  unfold num_linear. change (Z.sqrt (0 ^ 2)) with 0%Z.
  destruct (reorder a b) as [a0 b0]. reflexivity.
Qed.

Lemma reorder_le (a b : R) : fst (reorder a b) <= snd (reorder a b).
Proof.
  unfold reorder, Rgtb. destruct (Rgt_dec a b); simpl; lra.
Qed.

Lemma reorder_cases (a b : R) :
  reorder a b = (a, b) \/ reorder a b = (b, a).
Proof. unfold reorder. destruct (Rgtb a b); auto. Qed.

(** X5.  On an affine function m*x + q with m <> 0, with a <> b, a nonzero
    iteration count (its sign is ignored) and the smaller endpoint not
    a root, num_linear returns the exact root -q/m. *)
Theorem num_linear_affine (function : R -> R)
  (m q a b : R) (iterations : Z) :
  (forall x, function x = m * x + q) ->
  m <> 0 -> iterations <> 0%Z -> a <> b ->
  function (fst (reorder a b)) <> 0 ->
  num_linear function a b iterations = Ok (- q / m).
Proof.
  intros Hf Hm Hit Hab Ha.
  unfold num_linear. rewrite sqrt_square_abs.
  rewrite zrange_pos by lia.
  assert (Hne : fst (reorder a b) <> snd (reorder a b))
    by (destruct (reorder_cases a b) as [-> | ->]; simpl; congruence).
  destruct (reorder a b) as [a0 b0]. simpl in Ha, Hne.
  cbn [for_loop]. unfold linear_body.
  rewrite fdiv_ok by exact Ha.
  assert (Hden : function b0 / function a0 - 1 <> 0).
  { rewrite !Hf in *. intros E. apply Hne.
    assert (E' : m * b0 + q = m * a0 + q).
    { apply (Rmult_eq_reg_r (/ (m * a0 + q)));
        [| apply Rinv_neq_0_compat; exact Ha].
      rewrite Rinv_r by exact Ha. unfold Rdiv in E. lra. }
    apply (Rmult_eq_reg_l m); [lra | exact Hm]. }
  cbn [bind]. rewrite fdiv_ok by exact Hden. cbn [bind].
  assert (Hc : a0 - (b0 - a0) / (function b0 / function a0 - 1) = - q / m).
  { rewrite !Hf in *. field. repeat split; try assumption.
    intros E. apply Hden. field_simplify; [|exact Ha].
    replace (m * b0 - m * a0) with (m * b0 + q - (m * a0 + q)) by ring.
    rewrite E. unfold Rdiv. ring. }
  rewrite Hc.
  rewrite Reqb_true by (rewrite Hf; field; exact Hm). reflexivity.
Qed.

Lemma num_linear_affine_witness :
  num_linear (fun x => 2 * x + -6) 0 10 4 = Ok (- -6 / 2).
Proof.
  apply (num_linear_affine (fun x => 2 * x + -6) 2 (-6) 0 10 4).
  - reflexivity.
  - lra.
  - lia.
  - lra.
  - unfold reorder. rewrite Rgtb_false by lra. simpl. lra.
Defined.

(** X6.  When the function takes the same nonzero value at both ends of
    the bracket and the iteration count is not zero, num_linear raises
    ZeroDivisionError: fb/fa - 1 is zero and divides b - a. *)
Theorem num_linear_equal_values (function : R -> R) (a b : R)
  (iterations : Z) :
  iterations <> 0%Z ->
  function a <> 0 ->
  function a = function b ->
  num_linear function a b iterations = Raise ZeroDivisionError.
Proof.
  intros Hit Ha Heq.
  unfold num_linear. rewrite sqrt_square_abs.
  rewrite zrange_pos by lia.
  assert (H : function (fst (reorder a b)) <> 0 /\
              function (snd (reorder a b)) = function (fst (reorder a b))).
  { destruct (reorder_cases a b) as [-> | ->]; simpl; split; congruence. }
  destruct (reorder a b) as [a0 b0]. simpl in H. destruct H as [Ha0 Hb0].
  cbn [for_loop]. unfold linear_body.
  rewrite fdiv_ok by exact Ha0. cbn [bind].
  replace (function b0 / function a0 - 1) with 0
    by (rewrite Hb0; field; exact Ha0).
  rewrite fdiv_zero. reflexivity.
Qed.

Lemma num_linear_equal_values_witness :
  num_linear (fun x => x * x - 4) (-1) 1 3 = Raise ZeroDivisionError.
Proof.
  apply num_linear_equal_values.
  - lia.
  - lra.
  - lra.
Defined.

(* ---- num_bisection ---- *)

Lemma sign_same_side (fa fb fc : R) :
  fa * fb < 0 -> fc * fa > 0 -> fc * fb < 0.
Proof.
  intros Hab Hca.
  destruct (Rtotal_order fa 0) as [Ha | [Ha | Ha]]; [| subst; lra |];
  destruct (Rtotal_order fc 0) as [Hc | [Hc | Hc]]; try (subst; lra);
  destruct (Rtotal_order fb 0) as [Hb | [Hb | Hb]]; try (subst; lra); nra.
Qed.

Lemma sign_other_side (fa fb fc : R) :
  fa * fb < 0 -> ~ fc * fa > 0 -> fc <> 0 -> fa * fc < 0.
Proof.
  intros Hab Hca Hc0.
  destruct (Rtotal_order fa 0) as [Ha | [Ha | Ha]]; [| subst; lra |];
  destruct (Rtotal_order fc 0) as [Hc | [Hc | Hc]]; try (subst; lra); nra.
Qed.

(** The loop of [num_bisection] keeps a sign change inside the bracket,
    so whatever it returns is within the tolerance of a root. *)
Lemma bisection_loop_sound (f : R -> R) (n : Z) (tol lo hi : R) :
  continuity f -> 0 <= tol ->
  forall (l : list Z) (a b c r : R),
  a < b -> c = (a + b) / 2 -> f a * f b < 0 -> f c <> 0 ->
  lo <= a -> b <= hi ->
  for_loop l (bisection_body f n tol) (fun _ => Ok None) (a, b, c)
    = Ok (Some r) ->
  exists z, f z = 0 /\ lo <= z <= hi /\ lo <= r <= hi /\ Rabs (r - z) <= tol.
Proof.
  intros Hcont Htol. induction l as [|i l IH];
    intros a b c r Hab Hc Hsign Hfc Hlo Hhi Hrun; cbn [for_loop] in Hrun.
  - discriminate.
  - unfold bisection_body in Hrun.
    set (a' := if Rgtb (f c * f a) 0 then c else a) in *.
    set (b' := if Rgtb (f c * f a) 0 then b else c) in *.
    assert (Hpair : (if Rgtb (f c * f a) 0 then (c, b) else (a, c)) = (a', b'))
      by (unfold a', b'; destruct (Rgtb (f c * f a) 0); reflexivity).
    rewrite Hpair in Hrun.
    assert (Hinv : a' < b' /\ f a' * f b' < 0 /\ lo <= a' /\ b' <= hi).
    { unfold a', b', Rgtb. destruct (Rgt_dec (f c * f a) 0) as [Hg | Hg].
      - repeat split; try lra.
        rewrite Rmult_comm in Hsign.
        apply (sign_same_side (f a) (f b) (f c)); [lra | exact Hg].
      - repeat split; try lra.
        apply (sign_other_side (f a) (f b) (f c)); assumption. }
    clearbody a' b'. destruct Hinv as [Hab' [Hsign' [Hlo' Hhi']]].
    destruct (Reqb (f ((a' + b') / 2)) 0 ||
              (Rleb (- tol) ((a' - b') / 2) && Rleb ((a' - b') / 2) tol))%bool
      eqn:Hexit.
    + injection Hrun as <-.
      destruct (IVT_cor f a' b' Hcont (Rlt_le _ _ Hab') (Rlt_le _ _ Hsign'))
        as [z [Hz Hfz]].
      apply Bool.orb_true_iff in Hexit. destruct Hexit as [He | He].
      * exists ((a' + b') / 2). apply Reqb_spec in He.
        repeat split; try lra.
        replace ((a' + b') / 2 - (a' + b') / 2) with 0 by ring.
        rewrite Rabs_R0. exact Htol.
      * apply Bool.andb_true_iff in He. destruct He as [He1 _].
        unfold Rleb in He1.
        destruct (Rle_dec (- tol) ((a' - b') / 2)) as [Hw |]; [|discriminate].
        exists z. repeat split; try lra.
        apply Rabs_le. lra.
    + destruct (i =? n - 1)%Z; [discriminate|].
      apply Bool.orb_false_iff in Hexit. destruct Hexit as [He _].
      apply (IH a' b' ((a' + b') / 2) r); try assumption; try reflexivity.
      intros E. rewrite (Reqb_true _ _ E) in He. discriminate.
Qed.

(** X7.  For a continuous function with values of opposite sign at a and
    b, every number r that num_bisection returns lies in the bracket
    and is within the tolerance 1e-6 of an exact root inside the
    bracket. *)
Theorem num_bisection_sound (f : R -> R) (a b r : R) (iterations : Z) :
  continuity f ->
  f a * f b < 0 ->
  num_bisection f a b iterations = Ok (Some r) ->
  exists z, f z = 0 /\
            fst (reorder a b) <= z <= snd (reorder a b) /\
            fst (reorder a b) <= r <= snd (reorder a b) /\
            Rabs (r - z) <= 0.000001.
Proof.
  intros Hcont Hsign Hrun. unfold num_bisection in Hrun.
  pose proof (reorder_le a b) as Hle.
  assert (Hsign0 : f (fst (reorder a b)) * f (snd (reorder a b)) < 0)
    by (destruct (reorder_cases a b) as [-> | ->]; simpl; lra).
  destruct (reorder a b) as [a0 b0]. simpl in *.
  assert (Hfa : f a0 <> 0) by (intros E; rewrite E in Hsign0; lra).
  assert (Hfb : f b0 <> 0) by (intros E; rewrite E in Hsign0; lra).
  assert (Hlt : a0 < b0).
  { destruct Hle as [Hlt | Heq]; [exact Hlt|]. exfalso.
    rewrite Heq in Hsign0. pose proof (Rle_0_sqr (f b0)) as Hsq.
    unfold Rsqr in Hsq. lra. }
  cbn [for_loop] in Hrun.
  rewrite (Reqb_false (f a0)), (Reqb_false (f b0)) in Hrun by assumption.
  destruct (Req_dec_T (f ((a0 + b0) / 2)) 0) as [E | E].
  - rewrite Reqb_true in Hrun by exact E. injection Hrun as <-.
    exists ((a0 + b0) / 2). repeat split; try lra.
    replace ((a0 + b0) / 2 - (a0 + b0) / 2) with 0 by ring.
    rewrite Rabs_R0. lra.
  - rewrite Reqb_false in Hrun by exact E.
    assert (Htol : 0 <= 0.000001) by lra.
    apply (bisection_loop_sound f (Z.sqrt (iterations ^ 2)) 0.000001 a0 b0
             Hcont Htol (zrange (Z.sqrt (iterations ^ 2) - 1))
             a0 b0 ((a0 + b0) / 2) r);
      try assumption; try reflexivity; lra.
Qed.

Lemma affine_continuity (m q : R) : continuity (fun x => m * x + q).
Proof.
  apply continuity_plus.
  - apply continuity_mult; [apply continuity_const; intros x y; reflexivity
                           | apply derivable_continuous, derivable_id].
  - apply continuity_const. intros x y. reflexivity.
Qed.

Lemma num_bisection_sound_witness :
  exists z, (fun x => 1 * x + -1.25) z = 0 /\
            fst (reorder 1 2) <= z <= snd (reorder 1 2) /\
            fst (reorder 1 2) <= 1.25 <= snd (reorder 1 2) /\
            Rabs (1.25 - z) <= 0.000001.
Proof.
  apply (num_bisection_sound (fun x => 1 * x + -1.25) 1 2 1.25 3).
  - apply affine_continuity.
  - lra.
  - unfold num_bisection.
    change (Z.sqrt (3 ^ 2)) with 3%Z.
    change (zrange (3 - 1)) with [0%Z; 1%Z].
    unfold reorder. float_compare.
    cbn [for_loop]. float_run.
    unfold bisection_body. float_run.
    do 2 f_equal. lra.
Defined.

(** The loop returns a value as soon as a quarter of the current width
    is within the tolerance, if that many turns are left. *)
Lemma bisection_loop_returns (f : R -> R) (n : Z) (tol : R) :
  forall (k : nat) (l : list Z) (a b : R),
  (1 <= k <= length l)%nat ->
  (forall i, In i l -> i <> (n - 1)%Z) ->
  a <= b ->
  (b - a) / 2 ^ (S k) <= tol ->
  exists r, for_loop l (bisection_body f n tol) (fun _ => Ok None)
              (a, b, (a + b) / 2) = Ok (Some r).
Proof.
  induction k as [|k IH]; intros l a b Hk Hl Hab Hw; [lia|].
  destruct l as [|i l]; [simpl in Hk; lia|].
  cbn [for_loop]. unfold bisection_body.
  set (a' := if Rgtb (f ((a + b) / 2) * f a) 0 then (a + b) / 2 else a).
  set (b' := if Rgtb (f ((a + b) / 2) * f a) 0 then b else (a + b) / 2).
  assert (Hpair : (if Rgtb (f ((a + b) / 2) * f a) 0
                   then ((a + b) / 2, b) else (a, (a + b) / 2)) = (a', b'))
    by (unfold a', b'; destruct (Rgtb _ 0); reflexivity).
  rewrite Hpair.
  assert (Hinv : a' <= b' /\ b' - a' = (b - a) / 2)
    by (unfold a', b'; destruct (Rgtb _ 0); split; lra).
  clearbody a' b'. destruct Hinv as [Hab' Hw'].
  destruct (Reqb (f ((a' + b') / 2)) 0 ||
            (Rleb (- tol) ((a' - b') / 2) && Rleb ((a' - b') / 2) tol))%bool
    eqn:Hexit.
  - eexists. reflexivity.
  - destruct (Z.eqb_spec i (n - 1)) as [E | _];
      [exfalso; apply (Hl i); [left; reflexivity | exact E]|].
    destruct k as [|k].
    + exfalso. apply Bool.orb_false_iff in Hexit. destruct Hexit as [_ He].
      assert (Hq : (b' - a') / 2 <= tol).
      { rewrite Hw'. simpl in Hw. lra. }
      rewrite (Rleb_true (- tol)), (Rleb_true ((a' - b') / 2)) in He
        by lra.
      discriminate.
    + apply (IH l a' b').
      * simpl in Hk. lia.
      * intros j Hj. apply Hl. right. exact Hj.
      * exact Hab'.
      * rewrite Hw'.
        replace ((b - a) / 2 / 2 ^ S (S k)) with ((b - a) / 2 ^ S (S (S k)));
          [exact Hw|].
        simpl. field. apply pow_nonzero. lra.
Qed.

(** X8.  For any function and bracket, if |b - a| / 2^(k+1) <= 1e-6 for
    some k with 1 <= k <= |iterations| - 1, num_bisection returns a
    number (neither None nor an error): the bracket is halved at each
    turn and the loop returns once half its width is within the
    tolerance. *)
Theorem num_bisection_returns (f : R -> R) (a b : R) (iterations : Z)
  (k : nat) :
  (1 <= k)%nat -> (Z.of_nat k <= Z.abs iterations - 1)%Z ->
  Rabs (b - a) / 2 ^ (S k) <= 0.000001 ->
  exists r, num_bisection f a b iterations = Ok (Some r).
Proof.
  intros Hk Hbudget Hw. unfold num_bisection. rewrite sqrt_square_abs.
  assert (Hwidth : snd (reorder a b) - fst (reorder a b) = Rabs (b - a)).
  { unfold reorder, Rgtb. destruct (Rgt_dec a b); simpl.
    - rewrite Rabs_left by lra. ring.
    - rewrite Rabs_right by lra. ring. }
  pose proof (reorder_le a b) as Hle.
  destruct (reorder a b) as [a0 b0]. simpl in Hwidth, Hle.
  cbn [for_loop].
  destruct (Reqb (f a0) 0); [eexists; reflexivity|].
  destruct (Reqb (f b0) 0); [eexists; reflexivity|].
  destruct (Reqb (f ((a0 + b0) / 2)) 0); [eexists; reflexivity|].
  apply (bisection_loop_returns f _ _ k).
  - unfold zrange, range. rewrite length_map, length_seq. lia.
  - intros i Hi. apply zrange_lt in Hi. lia.
  - exact Hle.
  - rewrite Hwidth. exact Hw.
Qed.

Lemma num_bisection_returns_witness :
  exists r, num_bisection (fun x => x * x - 2) 1 2 50 = Ok (Some r).
Proof.
  apply (num_bisection_returns (fun x => x * x - 2) 1 2 50 19).
  - lia.
  - lia.
  - replace (2 - 1) with 1 by ring. rewrite Rabs_R1.
    apply (Rmult_le_reg_r (2 ^ 20)); [apply pow_lt; lra|].
    unfold Rdiv. rewrite Rmult_assoc, Rinv_l by (apply pow_nonzero; lra).
    simpl. lra.
Defined.

(* ===================================================================== *)
(** * The differentiators                                                *)
(* ===================================================================== *)

(** A loop that appends [g i] to its accumulator at each index. *)
Lemma for_each_append {A B} (body : list B -> A -> result (list B))
  (g : A -> list B) (l : list A) (acc : list B) :
  (forall res i, In i l -> body res i = Ok (res ++ g i)) ->
  for_each l body acc = Ok (acc ++ flat_map g l).
Proof.
  revert acc. induction l as [|a l IH]; intros acc Hb; simpl.
  - rewrite app_nil_r. reflexivity.
  - rewrite Hb by (left; reflexivity). simpl.
    rewrite IH by (intros res i Hi; apply Hb; right; exact Hi).
    rewrite app_assoc. reflexivity.
Qed.

Lemma diff_flat_map (values : list (R * R)) :
  diff values
  = Ok (flat_map (forward_difference values) (seq 0 (length values - 1))).
Proof.
  unfold diff, range.
  rewrite (for_each_append _ (forward_difference values)); [reflexivity|].
  intros res i Hi. apply in_seq in Hi.
  rewrite (getitem_nth values i (0, 0)) by lia.
  rewrite (getitem_nth values (i + 1) (0, 0)) by lia.
  cbn [bind]. unfold forward_difference.
  destruct (nth i values (0, 0)) as [x1 y1].
  destruct (nth (i + 1) values (0, 0)) as [x2 y2]. cbn [fst snd].
  destruct (Req_dec_T x2 x1) as [E | E].
  - rewrite Reqb_true by exact E. cbn [negb]. rewrite app_nil_r. reflexivity.
  - rewrite Reqb_false by exact E. cbn [negb].
    rewrite fdiv_ok by lra. reflexivity.
Qed.

Lemma flat_map_length_le {A B} (g : A -> list B) (l : list A) :
  (forall a, (length (g a) <= 1)%nat) ->
  (length (flat_map g l) <= length l)%nat.
Proof.
  intros Hg. induction l as [|a l IH]; simpl; [lia|].
  rewrite length_app. specialize (Hg a). lia.
Qed.

Lemma flat_map_singletons {A B} (g : A -> list B) (h : A -> B) (l : list A) :
  (forall a, In a l -> g a = [h a]) -> flat_map g l = map h l.
Proof.
  intros Hg. induction l as [|a l IH]; simpl; [reflexivity|].
  rewrite Hg by (left; reflexivity).
  rewrite IH by (intros b Hb; apply Hg; right; exact Hb). reflexivity.
Qed.

(** X10.  On float samples whose consecutive abscissae are pairwise
    different, diff returns exactly len(values) - 1 pairs, the i-th
    being (x[i], (y[i+1] - y[i]) / (x[i+1] - x[i])); in particular it
    returns the empty list on an empty or one-element input. *)
Theorem diff_distinct_abscissae (values : list (R * R)) :
  (forall i, (i + 1 < length values)%nat ->
     fst (nth (i + 1) values (0, 0)) <> fst (nth i values (0, 0))) ->
  diff values
  = Ok (map (fun i =>
               (fst (nth i values (0, 0)),
                (snd (nth (i + 1) values (0, 0)) - snd (nth i values (0, 0)))
                / (fst (nth (i + 1) values (0, 0))
                   - fst (nth i values (0, 0)))))
            (seq 0 (length values - 1))).
Proof.
  intros Hx. rewrite diff_flat_map. f_equal.
  apply flat_map_singletons. intros i Hi. apply in_seq in Hi.
  unfold forward_difference. rewrite Reqb_false by (apply Hx; lia).
  reflexivity.
Qed.

Lemma diff_distinct_abscissae_witness :
  diff [(0, 0); (1, 1); (2, 4)]
  = Ok (map (fun i =>
               (fst (nth i [(0, 0); (1, 1); (2, 4)] (0, 0)),
                (snd (nth (i + 1) [(0, 0); (1, 1); (2, 4)] (0, 0))
                 - snd (nth i [(0, 0); (1, 1); (2, 4)] (0, 0)))
                / (fst (nth (i + 1) [(0, 0); (1, 1); (2, 4)] (0, 0))
                   - fst (nth i [(0, 0); (1, 1); (2, 4)] (0, 0)))))
            (seq 0 (3 - 1))).
Proof.
  apply (diff_distinct_abscissae [(0, 0); (1, 1); (2, 4)]).
  intros i Hi. simpl in Hi.
  destruct i as [|[|i]]; simpl; try lra. lia.
Defined.

(* ===================================================================== *)
(** * More on convolution                                                *)
(* ===================================================================== *)

Lemma disc_convolve_floats_eq (f g : list R) :
  disc_convolve (map Flt f) (map Flt g)
  = Ok (map Flt (map (convolution_sum f g) (seq 0 (length f)))).
Proof.
  unfold disc_convolve, range. rewrite !length_map, map_map.
  apply mapM_ok. intros i Hi. apply in_seq in Hi.
  rewrite (convolve_inner f g i) by lia.
  unfold convolution_sum. do 2 f_equal. ring.
Qed.

Lemma map_nth_self (f : list R) :
  map (fun i => nth i f 0) (seq 0 (length f)) = f.
Proof.
  symmetry. rewrite <- (map_id f) at 1. apply (map_nth_seq (fun x => x) f 0).
Qed.

Lemma sum_zero_terms (h : nat -> R) (l : list nat) :
  (forall j, In j l -> h j = 0) -> fold_right Rplus 0 (map h l) = 0.
Proof.
  induction l as [|a l IH]; intros H; simpl; [reflexivity|].
  rewrite H by (left; reflexivity).
  rewrite IH by (intros j Hj; apply H; right; exact Hj). ring.
Qed.

Lemma nth_repeat_0 (n j : nat) : nth j (repeat 0 n) 0 = 0.
Proof.
  revert j. induction n as [|n IH]; intros [|j]; simpl; auto.
Qed.

(** X12.  Convolving a real sequence f with the impulse [1, 0, ..., 0] of
    any length >= 1 returns f unchanged. *)
Theorem disc_convolve_impulse (f : list R) (n : nat) :
  disc_convolve (map Flt f) (map Flt (1 :: repeat 0 n)) = Ok (map Flt f).
Proof.
  rewrite disc_convolve_floats_eq. do 2 f_equal.
  rewrite <- (map_nth_self f) at 3.
  apply map_ext_in. intros i Hi.
  unfold convolution_sum. cbn [length seq filter Nat.leb map fold_right].
  rewrite Nat.sub_0_r. cbn [nth].
  rewrite sum_zero_terms.
  - ring.
  - intros j Hj. apply filter_In in Hj. destruct Hj as [Hj _].
    apply in_seq in Hj. destruct j as [|j]; [lia|].
    cbn [nth]. rewrite nth_repeat_0. ring.
Qed.

Lemma filter_le_seq (i n : nat) :
  filter (fun j => (j <=? i)%nat) (seq 0 n) = seq 0 (Nat.min n (S i)).
Proof.
  induction n as [|n IH]; [reflexivity|].
  rewrite seq_S, filter_app, IH. cbn [filter Nat.add].
  destruct (Nat.leb_spec n i) as [Hle | Hgt].
  - replace (Nat.min n (S i)) with n by lia.
    replace (Nat.min (S n) (S i)) with (S n) by lia.
    rewrite seq_S. reflexivity.
  - replace (Nat.min n (S i)) with (S i) by lia.
    replace (Nat.min (S n) (S i)) with (S i) by lia.
    apply app_nil_r.
Qed.

Lemma sum_rev (l : list R) :
  fold_right Rplus 0 (rev l) = fold_right Rplus 0 l.
Proof.
  induction l as [|a l IH]; simpl; [reflexivity|].
  rewrite fold_right_app. simpl.
  assert (H : forall (l' : list R) (c : R),
             fold_right Rplus c l' = fold_right Rplus 0 l' + c).
  { induction l' as [|b l' IH']; intros c; simpl; [ring|].
    rewrite IH'. ring. }
  rewrite H, IH. ring.
Qed.

Lemma rev_seq_0 (n : nat) :
  rev (seq 0 n) = map (fun j => (n - 1 - j)%nat) (seq 0 n).
Proof.
  induction n as [|n IH]; [reflexivity|].
  rewrite seq_S at 1. rewrite rev_app_distr. cbn [rev app Nat.add].
  rewrite IH. cbn [seq map]. f_equal; [lia|].
  rewrite <- seq_shift, map_map.
  apply map_ext_in. intros j Hj. apply in_seq in Hj. lia.
Qed.

(** Summing the terms of a convolution from the other end. *)
Lemma convolution_sum_comm (f g : list R) (i : nat) :
  (i < length f)%nat -> (i < length g)%nat ->
  convolution_sum f g i = convolution_sum g f i.
Proof.
  intros Hf Hg. unfold convolution_sum.
  rewrite !filter_le_seq.
  replace (Nat.min (length g) (S i)) with (S i) by lia.
  replace (Nat.min (length f) (S i)) with (S i) by lia.
  rewrite <- sum_rev, <- map_rev, rev_seq_0, map_map.
  f_equal. apply map_ext_in. intros j Hj. apply in_seq in Hj.
  replace (i - (S i - 1 - j))%nat with j by lia.
  replace (S i - 1 - j)%nat with (i - j)%nat by lia.
  ring.
Qed.

(** X13.  For real sequences of equal length, disc_convolve(f, g) and
    disc_convolve(g, f) return the same list. *)
Theorem disc_convolve_comm (f g : list R) :
  length f = length g ->
  disc_convolve (map Flt f) (map Flt g)
  = disc_convolve (map Flt g) (map Flt f).
Proof.
  intros Hlen. rewrite !disc_convolve_floats_eq, <- Hlen. do 2 f_equal.
  apply map_ext_in. intros i Hi. apply in_seq in Hi.
  apply convolution_sum_comm; lia.
Qed.

Lemma disc_convolve_comm_witness :
  disc_convolve (map Flt [1; 2; 3]) (map Flt [4; 5; 6])
  = disc_convolve (map Flt [4; 5; 6]) (map Flt [1; 2; 3]).
Proof.
  apply disc_convolve_comm. reflexivity.
Defined.

(* ===================================================================== *)
(** * More on the transforms                                             *)
(* ===================================================================== *)

(** The forward sum of the inverse transform gives back the sample. *)
Lemma dft_forward_of_inverse x :
  dft (-2 * PI) (map Cx (dft (2 * PI) x)) = map to_complex2 x.
Proof.
  rewrite (map_nth_seq to_complex2 x (Flt 0)).
  unfold dft at 1. rewrite !length_map, dft_length.
  apply map_ext_in. intros n Hn. apply in_seq in Hn.
  set (N := length x) in *.
  assert (HN : N <> 0%nat) by lia.
  assert (HR : INR N <> 0) by (apply INR_neq_0; exact HN).
  unfold dft_sum at 1. rewrite !length_map, dft_length. fold N.
  rewrite (csum_ext _
    (fun k => cscale (/ sqrt (INR N))
       (csum (fun m => cmul (to_complex2 (nth m x (Flt 0)))
                (cis (2 * PI * (INR m - INR n) * INR k / INR N))) N))).
  2:{ intros k Hk.
      rewrite (nth_indep _ (Flt 0) (Cx C0))
        by (rewrite length_map, dft_length; exact Hk).
      rewrite (map_nth Cx (dft (2 * PI) x) C0 k).
      rewrite dft_nth by exact Hk. fold N. simpl to_complex2.
      rewrite <- cscale_cmul. f_equal.
      unfold dft_sum. fold N. rewrite <- csum_cmul_r.
      apply csum_ext. intros m Hm.
      rewrite <- cmul_assoc, <- cis_add. do 2 f_equal.
      field. exact HR. }
  rewrite csum_cscale, cscale_cscale, inv_sqrt_sqr by exact HN.
  rewrite csum_swap.
  rewrite (csum_ext _
    (fun m => cmul (to_complex2 (nth m x (Flt 0)))
                   (if (m =? n)%nat then Complex2 (INR N) 0 else C0))).
  2:{ intros m Hm. rewrite csum_cmul_l.
      rewrite orthogonality by lia. reflexivity. }
  rewrite (csum_single _ N n).
  2: lia.
  2:{ intros j Hj Hne. cbv beta.
      destruct (Nat.eqb_spec j n); [congruence | apply cmul_0_r]. }
  rewrite Nat.eqb_refl.
  destruct (to_complex2 (nth n x (Flt 0))) as [u v].
  unfold cscale, cmul, __rmul__, __mul__. simpl. f_equal; field; exact HR.
Qed.

(** X14.  The round trip in the other order: for every sequence X of real
    or complex values, disc_fourier(disc_inv_fourier(X)) equals X
    componentwise over exact arithmetic. *)
Theorem disc_inv_fourier_round_trip (X : list num) :
  (x <- disc_inv_fourier X ;; disc_fourier (map Cx x))
  = Ok (map to_complex2 X).
Proof.
  rewrite disc_inv_fourier_ok. cbn [bind].
  rewrite disc_fourier_ok, dft_forward_of_inverse. reflexivity.
Qed.

(** The empty sequence: [dfft] indexes [x[0]], the direct transforms
    loop over nothing. *)
Theorem transforms_on_empty (s : Z) (inverse : bool) :
  dfft [] s inverse = Raise IndexError /\
  disc_fourier [] = Ok [] /\
  disc_inv_fourier [] = Ok [].
Proof.
  split; [|split].
  - rewrite dfft_short by (simpl; lia). reflexivity.
  - reflexivity.
  - reflexivity.
Qed.

(** X15.  On a power-of-two length, dfft called with a scale parameter s
    other than 1 returns the un-normalised coefficients, a list of the
    input's length; the call with s = 1 returns the same coefficients
    each multiplied by 1/sqrt(N). *)
Theorem dfft_scale_parameter (x : list num) (s : Z) :
  power_of_two (length x) -> s <> 1%Z ->
  exists U, dfft x s false = Ok U /\
            length U = length x /\
            dfft x 1 false
            = Ok (map (cscale (/ sqrt (INR (length x)))) U).
Proof.
  intros [p Hp] Hs.
  exists (map (dft_sum (-2 * PI) x) (seq 0 (length x))).
  split; [|split].
  - rewrite (dfft_forward p x s Hp).
    replace (s =? 1)%Z with false by (symmetry; apply Z.eqb_neq; exact Hs).
    reflexivity.
  - rewrite length_map, length_seq. reflexivity.
  - rewrite (dfft_forward p x 1 Hp). cbn [Z.eqb Pos.eqb].
    unfold dft. rewrite map_map. reflexivity.
Qed.

Lemma dfft_scale_parameter_witness :
  exists U, dfft [Flt 1; Flt 2; Flt 3; Flt 4] 2 false = Ok U /\
            length U = length [Flt 1; Flt 2; Flt 3; Flt 4] /\
            dfft [Flt 1; Flt 2; Flt 3; Flt 4] 1 false
            = Ok (map (cscale (/ sqrt (INR (length
                                  [Flt 1; Flt 2; Flt 3; Flt 4])))) U).
Proof.
  apply dfft_scale_parameter.
  - exists 2%nat. reflexivity.
  - lia.
Defined.

(* ===================================================================== *)
(** * More on [complex2]                                                 *)
(* ===================================================================== *)

Lemma mag_sqr (z : complex2) : mag z ^ 2 = re z ^ 2 + im z ^ 2.
Proof. unfold mag. apply pow2_sqrt. nra. Qed.

Lemma mag_nonneg (z : complex2) : 0 <= mag z.
Proof. unfold mag. apply sqrt_pos. Qed.

Lemma sqr_inj_nonneg (x y : R) : 0 <= x -> 0 <= y -> x ^ 2 = y ^ 2 -> x = y.
Proof. intros Hx Hy H. nra. Qed.

(** X16.  The magnitude is multiplicative: mag(z*w) = mag(z)*mag(w) for
    complex w, and mag(z*r) = |r|*mag(z) for a float r. *)
Theorem complex2_mul_mag (z w : complex2) :
  mag (__mul__ z (Cx w)) = mag z * mag w /\
  forall r : R, mag (__mul__ z (Flt r)) = Rabs r * mag z.
Proof.
  split.
  - apply sqr_inj_nonneg.
    + apply mag_nonneg.
    + apply Rmult_le_pos; apply mag_nonneg.
    + rewrite Rpow_mult_distr, !mag_sqr. simpl. ring.
  - intros r. apply sqr_inj_nonneg.
    + apply mag_nonneg.
    + apply Rmult_le_pos; [apply Rabs_pos | apply mag_nonneg].
    + rewrite Rpow_mult_distr, !mag_sqr, pow2_abs. simpl. ring.
Qed.

(** X17.  Division undoes multiplication: (z*w)/w returns z for every
    complex w of nonzero magnitude, and (z*r)/r returns z for every
    nonzero float r. *)
Theorem complex2_mul_div (z w : complex2) (r : R) :
  (mag w <> 0 -> __div__ (__mul__ z (Cx w)) (Cx w) = Ok z) /\
  (r <> 0 -> __div__ (__mul__ z (Flt r)) (Flt r) = Ok z).
Proof.
  split.
  - intros Hw. simpl. rewrite Reqb_false by exact Hw.
    assert (Hn : re w ^ 2 + im w ^ 2 <> 0).
    { intros E. apply Hw. unfold mag. rewrite E. apply sqrt_0. }
    f_equal. destruct z as [a b], w as [c d]. simpl in *.
    f_equal; field; intros E; apply Hn; lra.
  - intros Hr. simpl. rewrite Reqb_false by exact Hr.
    f_equal. destruct z as [a b]. simpl. f_equal; field; exact Hr.
Qed.

Lemma complex2_mul_div_witness :
  __div__ (__mul__ (Complex2 1 2) (Cx (Complex2 3 4))) (Cx (Complex2 3 4))
    = Ok (Complex2 1 2) /\
  __div__ (__mul__ (Complex2 1 2) (Flt 5)) (Flt 5) = Ok (Complex2 1 2).
Proof.
  split.
  - apply (proj1 (complex2_mul_div (Complex2 1 2) (Complex2 3 4) 5)).
    intros H. apply mag_zero_iff in H. simpl in H. lra.
  - apply (proj2 (complex2_mul_div (Complex2 1 2) (Complex2 3 4) 5)). lra.
Defined.

(** X18.  exp2 turns sums into products, exp2(z + w) = exp2(z)*exp2(w);
    the magnitude of exp2(z) is e^(re z); and the float branch agrees
    with the complex branch, exp2(x) = exp2(complex2(x, 0)). *)
Theorem exp2_homomorphism (z w : complex2) (x : R) :
  exp2 (Cx (__add__ z (Cx w))) = __mul__ (exp2 (Cx z)) (Cx (exp2 (Cx w))) /\
  mag (exp2 (Cx z)) = exp (re z) /\
  exp2 (Flt x) = exp2 (Cx (Complex2 x 0)).
Proof.
  split; [|split].
  - destruct z as [a b], w as [c d]. unfold exp2, __rmul__, __mul__, __add__.
    simpl. rewrite exp_plus, cos_plus, sin_plus. f_equal; ring.
  - apply sqr_inj_nonneg.
    + apply mag_nonneg.
    + left. apply exp_pos.
    + rewrite mag_sqr. unfold exp2, __rmul__. simpl.
      pose proof (sin2_cos2 (im z)) as H. unfold Rsqr in H. nra.
  - unfold exp2, __rmul__. simpl. rewrite cos_0, sin_0. f_equal; ring.
Qed.

(** X19.  complex2.phi_rotate preserves the magnitude, composes additively
    (rotating by a then by b is rotating by a + b), is the identity at
    angle 0, and equals multiplication by exp2(complex2(0, angle)). *)
Theorem phi_rotate_properties (z : complex2) (a b : R) :
  mag (phi_rotate z a) = mag z /\
  phi_rotate (phi_rotate z a) b = phi_rotate z (a + b) /\
  phi_rotate z 0 = z /\
  phi_rotate z a = __mul__ z (Cx (exp2 (Cx (Complex2 0 a)))).
Proof.
  split; [|split; [|split]].
  - apply sqr_inj_nonneg; try apply mag_nonneg.
    rewrite !mag_sqr. unfold phi_rotate. simpl.
    pose proof (sin2_cos2 a) as H. unfold Rsqr in H. nra.
  - unfold phi_rotate. simpl. rewrite cos_plus, sin_plus. f_equal; ring.
  - unfold phi_rotate. rewrite cos_0, sin_0. destruct z. simpl. f_equal; ring.
  - unfold phi_rotate, exp2, __rmul__, __mul__. simpl. rewrite exp_0.
    f_equal; ring.
Qed.

(* ===================================================================== *)
(** * [vector3]                                                          *)
(* ===================================================================== *)

Lemma v3_mag_sqr (v : vector3) :
  V3.mag v ^ 2 = vx v ^ 2 + vy v ^ 2 + vz v ^ 2.
Proof. unfold V3.mag. apply pow2_sqrt. nra. Qed.

Lemma v3_mag_nonneg (v : vector3) : 0 <= V3.mag v.
Proof. unfold V3.mag. apply sqrt_pos. Qed.

(** X20.  vector3.cross returns a vector orthogonal to both operands,
    whose squared magnitude is |u|^2 |v|^2 - (u.v)^2, and swapping the
    operands negates it. *)
Theorem cross_properties (u v : vector3) (t : string) :
  V3.dot u (V3.cross u v t) = 0 /\
  V3.dot v (V3.cross u v t) = 0 /\
  V3.mag (V3.cross u v t) ^ 2
    = V3.mag u ^ 2 * V3.mag v ^ 2 - V3.dot u v ^ 2 /\
  V3.cross u v t = V3.__mul__ (V3.cross v u t) (-1).
Proof.
  destruct u as [a b c tu], v as [d e f tv].
  split; [|split; [|split]].
  - unfold V3.dot, V3.cross. simpl. ring.
  - unfold V3.dot, V3.cross. simpl. ring.
  - rewrite !v3_mag_sqr. unfold V3.dot, V3.cross. simpl. ring.
  - unfold V3.cross, V3.__mul__. simpl. f_equal; ring.
Qed.

(** X21.  vector3.norm returns the vector itself when its magnitude is
    zero; otherwise it returns a vector of magnitude 1 which,
    multiplied by the original magnitude, gives the original vector
    back (vector_type included). *)
Theorem norm_unit (v : vector3) :
  (V3.mag v = 0 -> V3.norm v = Ok v) /\
  (V3.mag v <> 0 ->
     exists n, V3.norm v = Ok n /\ V3.mag n = 1 /\
               V3.__mul__ n (V3.mag v) = v).
Proof.
  split.
  - intros H0. unfold V3.norm. rewrite Reqb_true by exact H0. reflexivity.
  - intros Hm. unfold V3.norm. rewrite Reqb_false by exact Hm.
    rewrite !fdiv_ok by exact Hm. cbn [bind].
    eexists. split; [reflexivity|]. split.
    + apply sqr_inj_nonneg; [apply v3_mag_nonneg | lra |].
      rewrite v3_mag_sqr. cbn [vx vy vz].
      pose proof (v3_mag_sqr v) as Hs.
      transitivity ((vx v ^ 2 + vy v ^ 2 + vz v ^ 2) / V3.mag v ^ 2);
        [field; exact Hm|].
      rewrite <- Hs. field. exact Hm.
    + destruct v as [a b c t]. unfold V3.__mul__. simpl.
      f_equal; field; exact Hm.
Qed.

Lemma norm_unit_witness :
  exists n, V3.norm (Vector3 3 4 0 "displacement") = Ok n /\
            V3.mag n = 1 /\
            V3.__mul__ n (V3.mag (Vector3 3 4 0 "displacement"))
            = Vector3 3 4 0 "displacement".
Proof.
  apply (proj2 (norm_unit (Vector3 3 4 0 "displacement"))).
  intros H. assert (H2 : V3.mag (Vector3 3 4 0 "displacement") ^ 2 = 0)
    by (rewrite H; ring).
  rewrite v3_mag_sqr in H2. simpl in H2. lra.
Defined.

(** X22.  vector3.phi_rotate about an origin preserves the distance to
    that origin, composes additively about the same origin, and is the
    identity at angle 0. *)
Theorem v3_phi_rotate_properties (v origin : vector3) (a b : R) :
  V3.mag (V3.__sub__ (V3.phi_rotate v a origin) origin)
    = V3.mag (V3.__sub__ v origin) /\
  V3.phi_rotate (V3.phi_rotate v a origin) b origin
    = V3.phi_rotate v (a + b) origin /\
  V3.phi_rotate v 0 origin = v.
Proof.
  destruct v as [x y z t], origin as [ox oy oz ot].
  split; [|split].
  - apply sqr_inj_nonneg; try apply v3_mag_nonneg.
    rewrite !v3_mag_sqr. unfold V3.phi_rotate, V3.__sub__, V3.__add__.
    cbn [vx vy vz].
    pose proof (sin2_cos2 a) as H. unfold Rsqr in H.
    transitivity ((sin a * sin a + cos a * cos a)
                  * ((x - ox) ^ 2 + (y - oy) ^ 2) + (z - oz) ^ 2);
      [ring | rewrite H; ring].
  - unfold V3.phi_rotate, V3.__sub__, V3.__add__. simpl.
    rewrite cos_plus, sin_plus. f_equal; ring.
  - unfold V3.phi_rotate, V3.__sub__, V3.__add__. simpl.
    rewrite cos_0, sin_0. f_equal; ring.
Qed.

(** Division by a nonzero float undoes multiplication by it. *)
Theorem v3_mul_div (v : vector3) (a : R) :
  (a <> 0 -> V3.__div__ (V3.__mul__ v a) a = Ok v) /\
  V3.__div__ v 0 = Raise ZeroDivisionError.
Proof.
  split.
  - intros Ha. unfold V3.__div__, V3.__mul__. simpl.
    rewrite !fdiv_ok by exact Ha. cbn [bind].
    destruct v as [x y z t]. simpl. do 2 f_equal; field; exact Ha.
  - unfold V3.__div__. rewrite fdiv_zero. reflexivity.
Qed.

Lemma v3_mul_div_witness :
  V3.__div__ (V3.__mul__ (Vector3 1 2 3 "force") 4) 4
  = Ok (Vector3 1 2 3 "force").
Proof.
  apply (proj1 (v3_mul_div (Vector3 1 2 3 "force") 4)). lra.
Defined.

(* ===================================================================== *)
(** * [ball] and [point_source]                                          *)
(* ===================================================================== *)

Lemma v3_div_ok (v : vector3) (a : R) :
  a <> 0 ->
  V3.__div__ v a = Ok (Vector3 (vx v / a) (vy v / a) (vz v / a) (vector_type v)).
Proof.
  intros Ha. unfold V3.__div__. rewrite !fdiv_ok by exact Ha. reflexivity.
Qed.

(** X23.  When the total mass is not zero (and, for an elastic collision,
    the centres do not coincide), ball.collide succeeds, leaves
    masses, radii and positions unchanged, and the total momentum
    after the call equals the total momentum before it, in both the
    elastic and the completely inelastic mode. *)
Theorem collide_conserves_momentum (b1 b2 : ball) (is_elastic : bool) :
  mass b1 + mass b2 <> 0 ->
  (is_elastic = true -> V3.mag (V3.__sub__ (pos b1) (pos b2)) <> 0) ->
  exists b1' b2',
    collide b1 b2 is_elastic = Ok (b1', b2') /\
    V3.__add__ (momentum b1') (momentum b2')
      = V3.__add__ (momentum b1) (momentum b2) /\
    mass b1' = mass b1 /\ mass b2' = mass b2 /\
    pos b1' = pos b1 /\ pos b2' = pos b2 /\
    radius b1' = radius b1 /\ radius b2' = radius b2.
Proof.
  intros HM Hpos. unfold collide. destruct is_elastic.
  - specialize (Hpos eq_refl).
    assert (Hp2 : V3.mag (V3.__sub__ (pos b1) (pos b2)) ^ 2 <> 0)
      by (apply pow_nonzero; exact Hpos).
    rewrite !fdiv_ok by assumption. cbn [bind fst snd].
    eexists. eexists. split; [reflexivity|].
    split; [|repeat split].
    set (d := V3.dot _ _ / _).
    destruct b1 as [m1 r1 p1 [u1 v1 w1 t1]], b2 as [m2 r2 p2 [u2 v2 w2 t2]].
    unfold momentum, V3.__add__, V3.__mul__, V3.__sub__. cbn in HM |- *.
    f_equal; field; exact HM.
  - unfold zmf_vel. rewrite !v3_div_ok by exact HM. cbn [bind fst snd].
    eexists. eexists. split; [reflexivity|].
    split; [|repeat split].
    destruct b1 as [m1 r1 p1 [u1 v1 w1 t1]], b2 as [m2 r2 p2 [u2 v2 w2 t2]].
    unfold momentum, zmf_vel, V3.__add__, V3.__mul__. cbn in HM |- *.
    f_equal; field; exact HM.
Qed.

Lemma collide_conserves_momentum_witness :
  exists b1' b2',
    collide (ball_init 1 1 0 0 1 0) (ball_init 3 1 2 0 (-1) 0) true
      = Ok (b1', b2') /\
    V3.__add__ (momentum b1') (momentum b2')
      = V3.__add__ (momentum (ball_init 1 1 0 0 1 0))
                   (momentum (ball_init 3 1 2 0 (-1) 0)) /\
    mass b1' = mass (ball_init 1 1 0 0 1 0) /\
    mass b2' = mass (ball_init 3 1 2 0 (-1) 0) /\
    pos b1' = pos (ball_init 1 1 0 0 1 0) /\
    pos b2' = pos (ball_init 3 1 2 0 (-1) 0) /\
    radius b1' = radius (ball_init 1 1 0 0 1 0) /\
    radius b2' = radius (ball_init 3 1 2 0 (-1) 0).
Proof.
  apply collide_conserves_momentum.
  - simpl. lra.
  - intros _ H.
    assert (H2 : V3.mag (V3.__sub__ (pos (ball_init 1 1 0 0 1 0))
                                    (pos (ball_init 3 1 2 0 (-1) 0))) ^ 2 = 0)
      by (rewrite H; ring).
    rewrite v3_mag_sqr in H2. simpl in H2. lra.
Defined.

(** X24.  An elastic ball.collide (nonzero total mass, distinct centres)
    conserves the total kinetic energy m1|v1|^2 + m2|v2|^2. *)
Theorem elastic_collide_conserves_energy (b1 b2 : ball) :
  mass b1 + mass b2 <> 0 ->
  V3.mag (V3.__sub__ (pos b1) (pos b2)) <> 0 ->
  exists b1' b2',
    collide b1 b2 true = Ok (b1', b2') /\
    twice_kinetic_energy b1' + twice_kinetic_energy b2'
      = twice_kinetic_energy b1 + twice_kinetic_energy b2.
Proof.
  intros HM Hpos. unfold collide.
  assert (Hp2 : V3.mag (V3.__sub__ (pos b1) (pos b2)) ^ 2 <> 0)
    by (apply pow_nonzero; exact Hpos).
  rewrite !fdiv_ok by assumption. cbn [bind fst snd].
  eexists. eexists. split; [reflexivity|].
  revert Hp2. rewrite v3_mag_sqr. clear Hpos.
  destruct b1 as [m1 r1 [x1 y1 z1 s1] [u1 v1 w1 t1]],
           b2 as [m2 r2 [x2 y2 z2 s2] [u2 v2 w2 t2]].
  unfold twice_kinetic_energy, V3.dot, V3.__mul__, V3.__sub__.
  cbn in HM |- *. intros Hp2. field.
  split; [exact HM | intros E; apply Hp2; lra].
Qed.

Lemma elastic_collide_conserves_energy_witness :
  exists b1' b2',
    collide (ball_init 1 1 0 0 1 0) (ball_init 3 1 2 0 (-1) 0) true
      = Ok (b1', b2') /\
    twice_kinetic_energy b1' + twice_kinetic_energy b2'
      = twice_kinetic_energy (ball_init 1 1 0 0 1 0)
        + twice_kinetic_energy (ball_init 3 1 2 0 (-1) 0).
Proof.
  apply elastic_collide_conserves_energy.
  - simpl. lra.
  - intros H.
    assert (H2 : V3.mag (V3.__sub__ (pos (ball_init 1 1 0 0 1 0))
                                    (pos (ball_init 3 1 2 0 (-1) 0))) ^ 2 = 0)
      by (rewrite H; ring).
    rewrite v3_mag_sqr in H2. simpl in H2. lra.
Defined.

(** X25.  After a completely inelastic ball.collide (nonzero total mass)
    both balls have the same velocity, and that velocity times the
    total mass is the total momentum before the collision. *)
Theorem inelastic_collide_common_velocity (b1 b2 : ball) :
  mass b1 + mass b2 <> 0 ->
  exists b1' b2',
    collide b1 b2 false = Ok (b1', b2') /\
    vel b1' = vel b2' /\
    V3.__mul__ (vel b1') (mass b1 + mass b2)
      = V3.__add__ (momentum b1) (momentum b2).
Proof.
  intros HM. unfold collide, zmf_vel.
  rewrite !v3_div_ok by exact HM. cbn [bind fst snd].
  eexists. eexists. split; [reflexivity|]. split; [reflexivity|].
  destruct b1 as [m1 r1 p1 [u1 v1 w1 t1]], b2 as [m2 r2 p2 [u2 v2 w2 t2]].
  unfold momentum, V3.__add__, V3.__mul__. cbn in HM |- *.
  f_equal; field; exact HM.
Qed.

Lemma inelastic_collide_common_velocity_witness :
  exists b1' b2',
    collide (ball_init 1 1 0 0 1 0) (ball_init 3 1 2 0 (-1) 0) false
      = Ok (b1', b2') /\
    vel b1' = vel b2' /\
    V3.__mul__ (vel b1') (mass (ball_init 1 1 0 0 1 0)
                          + mass (ball_init 3 1 2 0 (-1) 0))
      = V3.__add__ (momentum (ball_init 1 1 0 0 1 0))
                   (momentum (ball_init 3 1 2 0 (-1) 0)).
Proof.
  apply inelastic_collide_common_velocity. simpl. lra.
Defined.

(** A zero total mass, or coincident centres in the elastic mode, make
    [collide] divide by zero. *)
Theorem collide_errors (b1 b2 : ball) (is_elastic : bool) :
  (mass b1 + mass b2 = 0 ->
     collide b1 b2 is_elastic = Raise ZeroDivisionError) /\
  (pos b1 = pos b2 -> collide b1 b2 true = Raise ZeroDivisionError).
Proof.
  split.
  - intros HM. unfold collide, zmf_vel, V3.__div__.
    rewrite HM, !fdiv_zero. destruct is_elastic; reflexivity.
  - intros Hp. unfold collide.
    destruct (Req_dec_T (mass b1 + mass b2) 0) as [HM | HM].
    + rewrite HM, fdiv_zero. reflexivity.
    + rewrite (fdiv_ok _ _ HM). cbn [bind].
      assert (H0 : V3.mag (V3.__sub__ (pos b1) (pos b2)) ^ 2 = 0).
      { rewrite v3_mag_sqr, Hp. simpl. ring. }
      rewrite H0, fdiv_zero. reflexivity.
Qed.

Lemma collide_errors_witness :
  collide (ball_init 1 1 0 0 1 0) (ball_init (-1) 1 2 0 0 0) false
    = Raise ZeroDivisionError /\
  collide (ball_init 1 1 2 0 1 0) (ball_init 3 1 2 0 0 0) true
    = Raise ZeroDivisionError.
Proof.
  split.
  - apply (proj1 (collide_errors _ _ false)). simpl. lra.
  - apply (proj2 (collide_errors _ _ true)). reflexivity.
Defined.

(** X26.  ball.collision_check is symmetric: a.collision_check(b) and
    b.collision_check(a) give the same answer. *)
Theorem collision_check_symmetric (b1 b2 : ball) :
  collision_check b1 b2 = collision_check b2 b1.
Proof.
  unfold collision_check.
  assert (Hm : V3.mag (V3.__sub__ (pos b1) (pos b2))
               = V3.mag (V3.__sub__ (pos b2) (pos b1))).
  { apply sqr_inj_nonneg; try apply v3_mag_nonneg.
    rewrite !v3_mag_sqr. simpl. ring. }
  rewrite Hm, (Rplus_comm (radius b1)). reflexivity.
Qed.

(** Two moves at constant velocity are one move over the summed time. *)
Theorem move_additive (b : ball) (dt1 dt2 : R) :
  move (move b dt1) dt2 = move b (dt1 + dt2).
Proof.
  destruct b as [m r [x y z s] [u v w t]].
  unfold move, V3.__add__, V3.__mul__. simpl. do 2 f_equal; ring.
Qed.

(** X27.  Whenever the point_source constructor succeeds, the stored
    values satisfy speed = frequency * wavelength with speed the speed
    argument and frequency the frequency argument when one is given (a
    wavelength passed together with a frequency is replaced by
    speed/frequency); it fails only when neither frequency nor
    wavelength is given, or when the one it divides by is zero. *)
Theorem point_source_wave_relation (speed0 : R)
  (frequency0 wavelength0 : option R) (radius x y xsp ysp : R) :
  match point_source_init speed0 frequency0 wavelength0 radius x y xsp ysp with
  | Ok p =>
      speed p = frequency p * wavelength p /\ speed p = speed0 /\
      (forall f, frequency0 = Some f -> frequency p = f) /\
      (frequency0 = None -> Some (wavelength p) = wavelength0)
  | Raise e =>
      (frequency0 = None /\ wavelength0 = None) \/
      frequency0 = Some 0 \/
      (frequency0 = None /\ wavelength0 = Some 0)
  end.
Proof.
  unfold point_source_init.
  destruct frequency0 as [f|]; [|destruct wavelength0 as [w|]].
  - destruct (Req_dec_T f 0) as [-> | Hf].
    + rewrite fdiv_zero. cbn [bind]. right. left. reflexivity.
    + rewrite fdiv_ok by exact Hf. cbn [bind speed frequency wavelength].
      repeat split.
      * field. exact Hf.
      * intros f' E. injection E as <-. reflexivity.
      * discriminate.
  - destruct (Req_dec_T w 0) as [-> | Hw].
    + rewrite fdiv_zero. cbn [bind]. right. right. split; reflexivity.
    + rewrite fdiv_ok by exact Hw. cbn [bind speed frequency wavelength].
      repeat split.
      * field. exact Hw.
      * discriminate.
  - left. split; reflexivity.
Qed.

(* ===================================================================== *)
(** * The transform preserves energy                                     *)
(* ===================================================================== *)

Lemma cconj_cmul z w : cconj (cmul z w) = cmul (cconj z) (cconj w).
Proof. unfold cconj. complex_ring. Qed.

Lemma cconj_cadd z w : cconj (cadd z w) = cadd (cconj z) (cconj w).
Proof. unfold cconj. complex_ring. Qed.

Lemma cconj_cscale r z : cconj (cscale r z) = cscale r (cconj z).
Proof. unfold cconj. complex_ring. Qed.

Lemma cconj_cis t : cconj (cis t) = cis (- t).
Proof. unfold cconj, cis. simpl. rewrite cos_neg, sin_neg. reflexivity. Qed.

Lemma cconj_csum h n : cconj (csum h n) = csum (fun j => cconj (h j)) n.
Proof.
  induction n as [|n IH]; simpl.
  - unfold cconj, C0. simpl. f_equal. ring.
  - rewrite cconj_cadd, IH. reflexivity.
Qed.

Lemma energy_app l z : energy (l ++ [z]) = energy l + (re z ^ 2 + im z ^ 2).
Proof.
  unfold energy. rewrite map_app, fold_right_app. simpl.
  induction l as [|a l IH]; simpl; [ring|]. rewrite IH. ring.
Qed.

Lemma energy_csum (l : list complex2) :
  Complex2 (energy l) 0
  = csum (fun k => cmul (nth k l C0) (cconj (nth k l C0))) (length l).
Proof.
  induction l as [|z l IH] using rev_ind.
  - reflexivity.
  - rewrite energy_app, length_app, Nat.add_comm. cbn [length Nat.add csum].
    rewrite (csum_ext _ (fun k => cmul (nth k l C0) (cconj (nth k l C0)))).
    + rewrite <- IH, app_nth2, Nat.sub_diag by lia. cbn [nth].
      unfold cconj. complex_ring.
    + intros k Hk. rewrite app_nth1 by exact Hk. reflexivity.
Qed.

(** Parseval's identity for the sums of the forward transform. *)
Lemma dft_energy (x : list num) :
  energy (dft (-2 * PI) x) = energy (map to_complex2 x).
Proof.
  assert (H : Complex2 (energy (dft (-2 * PI) x)) 0
              = Complex2 (energy (map to_complex2 x)) 0);
    [|injection H as H; exact H].
  rewrite !energy_csum, dft_length, length_map.
  set (N := length x).
  destruct (Nat.eq_dec N 0) as [-> | HN]; [reflexivity|].
  assert (HR : INR N <> 0) by (apply INR_neq_0; exact HN).
  set (a := fun n => to_complex2 (nth n x (Flt 0))).
  rewrite (csum_ext _
    (fun k => cscale (/ INR N)
       (csum (fun n => csum (fun m =>
          cmul (cmul (a n) (cconj (a m)))
               (cis (2 * PI * (INR m - INR n) * INR k / INR N))) N) N))).
  2:{ intros k Hk. rewrite dft_nth by exact Hk. fold N.
      rewrite cconj_cscale, <- cscale_cmul.
      rewrite (cmul_comm (dft_sum _ _ _)), <- cscale_cmul, cscale_cscale.
      rewrite inv_sqrt_sqr by exact HN. f_equal.
      unfold dft_sum. fold N. rewrite cconj_csum, cmul_comm.
      rewrite <- csum_cmul_r. apply csum_ext. intros n Hn.
      rewrite <- csum_cmul_l. apply csum_ext. intros m Hm.
      rewrite cconj_cmul, cconj_cis. fold (a n) (a m).
      transitivity (cmul (cmul (a n) (cconj (a m)))
                      (cmul (cis (-2 * PI * INR n * INR k / INR N))
                            (cis (- (-2 * PI * INR m * INR k / INR N)))));
        [complex_ring|].
      rewrite <- cis_add. do 2 f_equal. field. exact HR. }
  rewrite csum_cscale.
  rewrite (csum_swap (fun k n => csum (fun m => _) N)).
  rewrite (csum_ext (fun n => csum _ N)
             (fun n => cscale (INR N) (cmul (a n) (cconj (a n))))).
  2:{ intros n Hn.
      rewrite (csum_swap (fun k m => cmul _ (cis _))).
      rewrite (csum_ext _
        (fun m => cmul (cmul (a n) (cconj (a m)))
                    (if (m =? n)%nat then Complex2 (INR N) 0 else C0))).
      2:{ intros m Hm. rewrite csum_cmul_l, orthogonality by lia.
          reflexivity. }
      rewrite (csum_single _ N n).
      2: lia.
      2:{ intros j Hj Hne. cbv beta.
          destruct (Nat.eqb_spec j n); [congruence | apply cmul_0_r]. }
      rewrite Nat.eqb_refl. complex_ring. }
  rewrite csum_cscale, cscale_cscale, Rinv_l, cscale_1 by exact HR.
  apply csum_ext. intros n Hn. unfold a.
  rewrite (nth_indep _ C0 (to_complex2 (Flt 0)))
    by (rewrite length_map; exact Hn).
  rewrite (map_nth to_complex2 x (Flt 0) n). reflexivity.
Qed.

(** X28.  disc_fourier preserves energy (Parseval): the sum of the squared
    magnitudes of the returned coefficients equals the sum of the
    squared magnitudes of the samples, for every length. *)
Theorem disc_fourier_parseval (x : list num) :
  exists X, disc_fourier x = Ok X /\
            length X = length x /\
            energy X = energy (map to_complex2 x).
Proof.
  exists (dft (-2 * PI) x). split; [apply disc_fourier_ok|].
  split; [apply dft_length | apply dft_energy].
Qed.

(* ===================================================================== *)
(** * More on the Runge-Kutta step                                       *)
(* ===================================================================== *)

Lemma fdiv_two (x : R) : fdiv x 2 = Ok (x / 2).
Proof. apply fdiv_ok. lra. Qed.

(** X29.  On the linear equation dy/dt = lam*y over floats, one
    runge_kutta4 step multiplies y by 1 + h + h^2/2 + h^3/6 + h^4/24
    with h = dt*lam, the degree-four Taylor polynomial of e^h. *)
Theorem runge_kutta4_linear_ode (lam y t dt : R) :
  runge_kutta4 y (fun _ u => lam * u) t dt
  = Ok (y * (1 + dt * lam + (dt * lam) ^ 2 / 2 + (dt * lam) ^ 3 / 6
             + (dt * lam) ^ 4 / 24)).
Proof.
  unfold runge_kutta4. cbv zeta. cbn [y_div y_mul y_add y_rmul float_ops].
  rewrite !fdiv_two. cbn [bind]. rewrite ?fdiv_two. cbn [bind].
  apply f_equal. field.
Qed.

(** X30.  When the derivative depends on t only and is a polynomial of
    degree at most three, one runge_kutta4 step over floats is exact:
    it adds to y the integral of the polynomial from t to t + dt. *)
Theorem runge_kutta4_cubic_quadrature (a b c d y t dt : R) :
  let g := fun s => a * s ^ 3 + b * s ^ 2 + c * s + d in
  let G := fun s => a * s ^ 4 / 4 + b * s ^ 3 / 3 + c * s ^ 2 / 2 + d * s in
  runge_kutta4 y (fun s _ => g s) t dt = Ok (y + (G (t + dt) - G t)).
Proof.
  intros g G. unfold runge_kutta4, g, G. cbv zeta.
  cbn [y_div y_mul y_add y_rmul float_ops].
  rewrite !fdiv_two. cbn [bind]. rewrite ?fdiv_two. cbn [bind].
  apply f_equal. field.
Qed.

(* ===================================================================== *)
(** * Floats and ints                                                    *)
(* ===================================================================== *)













Lemma py2_div_float_int (r : R) (n : Z) :
  IZR n <> 0 -> Py2.div (Py2.Float r) (Py2.Int n) = Ok (Py2.Float (r / IZR n)).
Proof.
  intros Hn. unfold Py2.div. cbn [Py2.to_R].
  rewrite Reqb_false by exact Hn. reflexivity.
Qed.

(** With a float state, time and step the step on numbers is the step on
    [R]. *)
Lemma py2_runge_kutta4_floats (y : R) (f : R -> R -> R) (t dt : R) :
  Py2.runge_kutta4 (Py2.Float y)
    (fun s u => Py2.Float (f (Py2.to_R s) (Py2.to_R u)))
    (Py2.Float t) (Py2.Float dt)
  = match runge_kutta4 y f t dt with
    | Ok v => Ok (Py2.Float v)
    | Raise e => Raise e
    end.
Proof.
  assert (H2 : IZR 2 <> 0) by lra.
  assert (H6 : IZR 6 <> 0) by lra.
  unfold Py2.runge_kutta4, runge_kutta4. cbv zeta.
  cbn [y_div y_mul y_add y_rmul float_ops Py2.mul Py2.add Py2.to_R].
  rewrite !py2_div_float_int by assumption. cbn [bind Py2.add Py2.to_R].
  rewrite !py2_div_float_int by assumption. cbn [bind Py2.add Py2.mul Py2.to_R].
  rewrite !(fdiv_ok _ 2) by lra. cbn [bind].
  rewrite ?(fdiv_ok _ 2) by lra. cbn [bind].
  reflexivity.
Qed.


(* ===================================================================== *)
(** * The differentiators, again                                         *)
(* ===================================================================== *)

Lemma flat_map_filter {A B} (g : A -> list B) (keep : A -> bool)
  (h : A -> B) (l : list A) :
  (forall a, In a l -> g a = if keep a then [h a] else []) ->
  flat_map g l = map h (filter keep l).
Proof.
  intros Hg. induction l as [|a l IH]; simpl; [reflexivity|].
  rewrite Hg by (left; reflexivity).
  rewrite IH by (intros b Hb; apply Hg; right; exact Hb).
  destruct (keep a); reflexivity.
Qed.

(** X9.  On float samples (x, y) that all lie on a line y = m*x + q, diff
    raises nothing and returns exactly the pairs (x[i], m) for the
    indices i < len(values) - 1 with x[i+1] != x[i], in increasing
    order of i; the indices with x[i+1] == x[i] are skipped. *)
Theorem diff_affine (values : list (R * R)) (m q : R) :
  (forall p, In p values -> snd p = m * fst p + q) ->
  diff values
  = Ok (map (fun i => (fst (nth i values (0, 0)), m))
            (filter (fun i => negb (Reqb (fst (nth (i + 1) values (0, 0)))
                                         (fst (nth i values (0, 0)))))
                    (seq 0 (length values - 1)))).
Proof.
  intros Hline. rewrite diff_flat_map. f_equal.
  apply flat_map_filter. intros i Hi. apply in_seq in Hi.
  unfold forward_difference.
  destruct (Req_dec_T (fst (nth (i + 1) values (0, 0)))
                      (fst (nth i values (0, 0)))) as [E | E].
  - rewrite Reqb_true by exact E. reflexivity.
  - rewrite Reqb_false by exact E. cbn [negb]. do 2 f_equal.
    rewrite (Hline (nth i values (0, 0))) by (apply nth_In; lia).
    rewrite (Hline (nth (i + 1) values (0, 0))) by (apply nth_In; lia).
    field. lra.
Qed.

(** Four samples on [y = 2 x + 1], two of them at the same abscissa. *)
Lemma diff_affine_witness :
  diff [(0, 1); (1, 3); (1, 3); (4, 9)] = Ok [(0, 2); (1, 2)].
Proof.
  rewrite (diff_affine [(0, 1); (1, 3); (1, 3); (4, 9)] 2 1).
  - cbn [length Nat.sub seq filter nth Nat.add fst map].
    rewrite (Reqb_false 1 0), (Reqb_true 1 1), (Reqb_false 4 1) by lra.
    reflexivity.
  - intros p Hp. simpl in Hp.
    destruct Hp as [<- | [<- | [<- | [<- | []]]]]; simpl; lra.
Defined.

Lemma uniform_samples_length p x0 h n :
  length (uniform_samples p x0 h n) = n.
Proof. unfold uniform_samples. rewrite length_map, length_seq. reflexivity. Qed.

Lemma uniform_samples_nth p x0 h n i :
  (i < n)%nat ->
  nth i (uniform_samples p x0 h n) (0, 0)
  = (x0 + INR i * h, p (x0 + INR i * h)).
Proof.
  intros Hi. unfold uniform_samples.
  exact (nth_map_seq (fun j => (x0 + INR j * h, p (x0 + INR j * h)))
                     n i (0, 0) Hi).
Qed.

(** X11.  On float samples of a polynomial of degree at most four taken at
    n equally spaced abscissae x0 + i*h with h <> 0, diff_5 returns,
    for every interior index i with 2 <= i < n - 2 and in that order,
    the pair (x[i], p'(x[i])) with the exact derivative: the five-
    point stencil is exact on quartics. With fewer than five samples
    the list is empty. *)
Theorem diff_5_quartic (c0 c1 c2 c3 c4 x0 h : R) (n : nat) :
  h <> 0 ->
  diff_5 (uniform_samples
            (fun x => c4 * x ^ 4 + c3 * x ^ 3 + c2 * x ^ 2 + c1 * x + c0)
            x0 h n)
  = Ok (map (fun i =>
               (x0 + INR i * h,
                4 * c4 * (x0 + INR i * h) ^ 3 + 3 * c3 * (x0 + INR i * h) ^ 2
                + 2 * c2 * (x0 + INR i * h) + c1))
            (seq 2 (n - 2 - 2))).
Proof.
  intros Hh. unfold diff_5. rewrite uniform_samples_length.
  set (p := fun x => c4 * x ^ 4 + c3 * x ^ 3 + c2 * x ^ 2 + c1 * x + c0).
  rewrite (for_each_append _
             (fun i => [(x0 + INR i * h,
                         4 * c4 * (x0 + INR i * h) ^ 3
                         + 3 * c3 * (x0 + INR i * h) ^ 2
                         + 2 * c2 * (x0 + INR i * h) + c1)])).
  - cbn [app]. apply f_equal.
    apply flat_map_singletons. intros i _. reflexivity.
  - intros res i Hi. apply in_seq in Hi. unfold diff_5_body.
    rewrite !(getitem_nth (uniform_samples p x0 h n) _ (0, 0))
      by (rewrite uniform_samples_length; lia).
    rewrite !uniform_samples_nth by lia. cbn [bind fst snd].
    assert (E1 : INR (i + 1) = INR i + 1) by (rewrite plus_INR; reflexivity).
    assert (E2 : INR (i + 2) = INR i + 2)
      by (rewrite plus_INR; simpl; ring).
    assert (E3 : INR (i - 1) = INR i - 1)
      by (rewrite minus_INR by lia; reflexivity).
    assert (E4 : INR (i - 2) = INR i - 2)
      by (rewrite minus_INR by lia; simpl; ring).
    rewrite E1, E2, E3, E4.
    replace (x0 + (INR i + 1) * h - (x0 + INR i * h)) with h by ring.
    rewrite Reqb_false by exact Hh. cbn [negb bind].
    rewrite fdiv_ok by lra. cbn [bind].
    match goal with
    | |- Ok (_ ++ [(_, ?d)]) = Ok (_ ++ [(_, ?e)]) =>
        replace d with e; [reflexivity | unfold p; field; exact Hh]
    end.
Qed.

(** Six samples of [x^4] at [0, 1, ..., 5]. *)
Lemma diff_5_quartic_witness :
  diff_5 (uniform_samples
            (fun x => 1 * x ^ 4 + 0 * x ^ 3 + 0 * x ^ 2 + 0 * x + 0)
            0 1 6)
  = Ok (map (fun i =>
               (0 + INR i * 1,
                4 * 1 * (0 + INR i * 1) ^ 3 + 3 * 0 * (0 + INR i * 1) ^ 2
                + 2 * 0 * (0 + INR i * 1) + 0))
            (seq 2 (6 - 2 - 2))).
Proof.
  apply (diff_5_quartic 0 0 0 0 1 0 1 6). lra.
Defined.

(** With fewer than five samples there is no interior point. *)
Lemma diff_5_short (values : list (R * R)) :
  (length values <= 4)%nat -> diff_5 values = Ok [].
Proof.
  intros Hn. unfold diff_5.
  replace (length values - 2 - 2)%nat with 0%nat by lia. reflexivity.
Qed.
